(** * stafford-gpt-ui: interaction state model

    A shallow embedding of the client-side state machines of the dashboard:
    - [Chat]: the dual-mode chat of [ChatInterface] (two timelines, two
      session identifiers, one loading flag, the suspended continuation of
      [handleSendMessage]);
    - [Upload]: the registry of [DocumentUpload] with the timers started by
      [simulateFileProcessing];
    - [Catalog]: [fetchDocuments] of [DocumentManagement].

    React state is modelled by explicit state passing: every handler is a
    function from the component state to the component state, and every
    functional updater [setX(prev => ...)] is applied to the state it
    receives.  Asynchronous code is split at its suspension points. *)

From Stdlib Require Import String Ascii List ZArith NArith QArith Bool Lia Lqa.
From Stdlib Require Import DecimalString.
Import ListNotations.

Set Implicit Arguments.

(** ** JavaScript strings *)

Module JS.

(** A string is its sequence of UTF-16 code units. *)
Definition jsstring := list N.

Definition str (s : string) : jsstring :=
  map N_of_ascii (list_ascii_of_string s).

Fixpoint eqb (s t : jsstring) : bool :=
  match s, t with
  | [], [] => true
  | c :: s', d :: t' => N.eqb c d && eqb s' t'
  | _, _ => false
  end.

(** [s === t] on an optional string ([null] or a string). *)
Definition opt_eqb (a b : option jsstring) : bool :=
  match a, b with
  | None, None => true
  | Some s, Some t => eqb s t
  | _, _ => false
  end.

(** ECMAScript WhiteSpace and LineTerminator code points, the ones
    [String.prototype.trim] strips. *)
Definition isWhiteSpace (c : N) : bool :=
  existsb (N.eqb c)
    [9; 10; 11; 12; 13; 32; 160; 5760; 8232; 8233; 8239; 8287; 12288; 65279]%N
  || (N.leb 8192 c && N.leb c 8202).

Fixpoint trimStart (s : jsstring) : jsstring :=
  match s with
  | [] => []
  | c :: s' => if isWhiteSpace c then trimStart s' else s
  end.

Definition trimEnd (s : jsstring) : jsstring := rev (trimStart (rev s)).

Definition trim (s : jsstring) : jsstring := trimEnd (trimStart s).

(** Truthiness of a string: only the empty string is falsy. *)
Definition truthy (s : jsstring) : bool :=
  match s with [] => false | _ :: _ => true end.

(** Truthiness of a value that is [null]/[undefined] or a string. *)
Definition opt_truthy (a : option jsstring) : bool :=
  match a with None => false | Some s => truthy s end.

(** [Number.prototype.toString] on an integer: its decimal numeral. *)
Definition toString (z : Z) : jsstring :=
  str (NilZero.string_of_int (Z.to_int z)).

End JS.

Import JS.

(** ** ChatInterface *)

Module Chat.

Inductive MessageType := user | assistant | system.

Record Source := {
  document : jsstring;
  chunk : jsstring;
  relevanceScore : Q;
  isInternal : option bool
}.

Record ChatMessage := {
  id : jsstring;
  type : MessageType;
  content : jsstring;
  timestamp : Z;
  sources : option (list Source);
  isTyping : option bool
}.

Inductive ChatMode := customer | internal.

Definition mode_eqb (a b : ChatMode) : bool :=
  match a, b with
  | customer, customer | internal, internal => true
  | _, _ => false
  end.

Definition mode_name (m : ChatMode) : jsstring :=
  match m with customer => str "customer" | internal => str "internal" end.

(** The continuation of [handleSendMessage] suspended at its [await]: the
    variables of the render the handler was created in. *)
Record Outstanding := {
  o_mode : ChatMode;            (* activeMode, which fixes setMessages and setSessionId *)
  o_sessionId : option jsstring; (* sessionId *)
  o_query : jsstring            (* currentQuery *)
}.

Record State := {
  activeMode : ChatMode;
  customerMessages : list ChatMessage;
  internalMessages : list ChatMessage;
  inputValue : jsstring;
  isLoading : bool;
  customerSessionId : option jsstring;
  internalSessionId : option jsstring;
  outstanding : list Outstanding
}.

Definition greeting_customer : jsstring :=
  str "Hello! I'm your virtual education consultant. I can help you find information about our affiliated universities, courses, and programs. How can I assist you today?".

Definition greeting_internal : jsstring :=
  str "Welcome to internal mode! I have access to all company documents including sales reports, marketing data, and other related information. What would you like to know?".

(** The state of the first render; [t0] is the clock at mount. *)
Definition initial (t0 : Z) : State := {|
  activeMode := customer;
  customerMessages :=
    [ {| id := str "1"; type := system; content := greeting_customer;
         timestamp := t0; sources := None; isTyping := None |} ];
  internalMessages :=
    [ {| id := str "1"; type := system; content := greeting_internal;
         timestamp := t0; sources := None; isTyping := None |} ];
  inputValue := [];
  isLoading := false;
  customerSessionId := None;
  internalSessionId := None;
  outstanding := []
|}.

(** [messages], [sessionId] of a mode, and the setters of a mode. *)
Definition messages (m : ChatMode) (st : State) : list ChatMessage :=
  match m with customer => customerMessages st | internal => internalMessages st end.

Definition sessionId (m : ChatMode) (st : State) : option jsstring :=
  match m with customer => customerSessionId st | internal => internalSessionId st end.

Definition setMessages (m : ChatMode)
    (f : list ChatMessage -> list ChatMessage) (st : State) : State :=
  match m with
  | customer =>
      {| activeMode := activeMode st;
         customerMessages := f (customerMessages st);
         internalMessages := internalMessages st;
         inputValue := inputValue st;
         isLoading := isLoading st;
         customerSessionId := customerSessionId st;
         internalSessionId := internalSessionId st;
         outstanding := outstanding st |}
  | internal =>
      {| activeMode := activeMode st;
         customerMessages := customerMessages st;
         internalMessages := f (internalMessages st);
         inputValue := inputValue st;
         isLoading := isLoading st;
         customerSessionId := customerSessionId st;
         internalSessionId := internalSessionId st;
         outstanding := outstanding st |}
  end.

Definition setSessionId (m : ChatMode) (v : option jsstring) (st : State) : State :=
  match m with
  | customer =>
      {| activeMode := activeMode st;
         customerMessages := customerMessages st;
         internalMessages := internalMessages st;
         inputValue := inputValue st;
         isLoading := isLoading st;
         customerSessionId := v;
         internalSessionId := internalSessionId st;
         outstanding := outstanding st |}
  | internal =>
      {| activeMode := activeMode st;
         customerMessages := customerMessages st;
         internalMessages := internalMessages st;
         inputValue := inputValue st;
         isLoading := isLoading st;
         customerSessionId := customerSessionId st;
         internalSessionId := v;
         outstanding := outstanding st |}
  end.

Definition setInputValue (v : jsstring) (st : State) : State :=
  {| activeMode := activeMode st;
     customerMessages := customerMessages st;
     internalMessages := internalMessages st;
     inputValue := v;
     isLoading := isLoading st;
     customerSessionId := customerSessionId st;
     internalSessionId := internalSessionId st;
     outstanding := outstanding st |}.

Definition setIsLoading (b : bool) (st : State) : State :=
  {| activeMode := activeMode st;
     customerMessages := customerMessages st;
     internalMessages := internalMessages st;
     inputValue := inputValue st;
     isLoading := b;
     customerSessionId := customerSessionId st;
     internalSessionId := internalSessionId st;
     outstanding := outstanding st |}.

Definition setActiveMode (m : ChatMode) (st : State) : State :=
  {| activeMode := m;
     customerMessages := customerMessages st;
     internalMessages := internalMessages st;
     inputValue := inputValue st;
     isLoading := isLoading st;
     customerSessionId := customerSessionId st;
     internalSessionId := internalSessionId st;
     outstanding := outstanding st |}.

Definition setOutstanding (l : list Outstanding) (st : State) : State :=
  {| activeMode := activeMode st;
     customerMessages := customerMessages st;
     internalMessages := internalMessages st;
     inputValue := inputValue st;
     isLoading := isLoading st;
     customerSessionId := customerSessionId st;
     internalSessionId := internalSessionId st;
     outstanding := l |}.

(** *** The query endpoint *)

Record RequestBody := {
  rb_query : jsstring;
  rb_namespace : jsstring;
  rb_session_id : option jsstring
}.

(** The body [sendMessageToAPI] posts: [session_id] only when truthy. *)
Definition requestBody (query namespace : jsstring) (sid : option jsstring)
    : RequestBody :=
  {| rb_query := query;
     rb_namespace := namespace;
     rb_session_id := if opt_truthy sid then sid else None |}.

Record QueryResult := {
  answer : jsstring;
  session_id : option jsstring
}.

(** What the awaited [fetch] of the query endpoint does. *)
Inductive FetchOutcome :=
| Rejected                       (* transport error: the promise rejects *)
| Responded (ok : bool) (statusText : jsstring)
            (json : option QueryResult). (* [None]: [response.json()] rejects *)

(** [sendMessageToAPI]: [None] stands for the rethrown error. *)
Definition sendMessageToAPI (out : FetchOutcome) : option QueryResult :=
  match out with
  | Rejected => None
  | Responded false _ _ => None
  | Responded true _ None => None
  | Responded true _ (Some data) =>
      Some {| answer := answer data; session_id := session_id data |}
  end.

(** *** handleSendMessage *)

Definition userMessage (now : Z) (text : jsstring) : ChatMessage :=
  {| id := toString now; type := user; content := text;
     timestamp := now; sources := None; isTyping := None |}.

Definition typingMessage (now : Z) : ChatMessage :=
  {| id := str "typing"; type := assistant; content := [];
     timestamp := now; sources := None; isTyping := Some true |}.

Definition assistantMessage (now : Z) (text : jsstring) : ChatMessage :=
  {| id := toString (now + 1); type := assistant; content := text;
     timestamp := now; sources := None; isTyping := None |}.

Definition failureNotice : jsstring :=
  str "Sorry, I encountered an error while processing your request. Please try again or check if the API service is running.".

(** The guard [!inputValue.trim() || isLoading]. *)
Definition skips (st : State) : bool :=
  negb (truthy (trim (inputValue st))) || isLoading st.

(** [setMessages(prev => [...prev, userMessage]); setInputValue('');
    setIsLoading(true)]. *)
Definition appendUserMessage (now : Z) (st : State) : State :=
  setIsLoading true
    (setInputValue []
       (setMessages (activeMode st)
          (fun prev => prev ++ [userMessage now (inputValue st)]) st)).

(** [setMessages(prev => [...prev, typingMessage])], with the setter of the
    render the handler belongs to. *)
Definition appendTyping (m : ChatMode) (now : Z) (st : State) : State :=
  setMessages m (fun prev => prev ++ [typingMessage now]) st.

(** The handler up to its [await]; the call it leaves suspended is recorded
    in [outstanding]. *)
Definition handleSendMessage (now : Z) (st : State) : State :=
  if skips st then st
  else
    let call := {| o_mode := activeMode st;
                   o_sessionId := sessionId (activeMode st) st;
                   o_query := inputValue st |} in
    setOutstanding (outstanding st ++ [call])
      (appendTyping (activeMode st) now (appendUserMessage now st)).

(** The request the suspended call has sent. *)
Definition requestOf (o : Outstanding) : RequestBody :=
  requestBody (o_query o) (mode_name (o_mode o)) (o_sessionId o).

Definition notTyping (m : ChatMessage) : bool :=
  negb (eqb (id m) (str "typing")).

(** The handler after its [await]: [try] body, [catch] and [finally]. *)
Definition resume (o : Outstanding) (out : FetchOutcome) (now : Z)
    (st : State) : State :=
  setIsLoading false
    match sendMessageToAPI out with
    | Some result =>
        let st1 :=
          if opt_truthy (session_id result)
             && negb (opt_eqb (session_id result) (o_sessionId o))
          then setSessionId (o_mode o) (session_id result) st
          else st in
        setMessages (o_mode o)
          (fun prev => filter notTyping prev
                       ++ [assistantMessage now (answer result)]) st1
    | None =>
        setMessages (o_mode o)
          (fun prev => filter notTyping prev
                       ++ [assistantMessage now failureNotice]) st
    end.

Fixpoint dropNth {A : Type} (k : nat) (l : list A) : list A :=
  match l, k with
  | [], _ => []
  | _ :: l', O => l'
  | x :: l', S k' => x :: dropNth k' l'
  end.

(** The [k]-th suspended call settles with [out]. *)
Definition settle (k : nat) (out : FetchOutcome) (now : Z) (st : State) : State :=
  match nth_error (outstanding st) k with
  | None => st
  | Some o => setOutstanding (dropNth k (outstanding st)) (resume o out now st)
  end.

(** *** clearChat *)

Definition welcomeMessage (m : ChatMode) (now : Z) : ChatMessage :=
  {| id := toString now;
     type := system;
     content :=
       match m with
       | customer => str "Chat cleared. How can I help you with our products and services today?"
       | internal => str "Chat cleared. What internal information would you like to access?"
       end;
     timestamp := now; sources := None; isTyping := None |}.

Definition clearChat (now : Z) (st : State) : State :=
  setMessages (activeMode st) (fun _ => [welcomeMessage (activeMode st) now]) st.

(** *** Events of the component *)

Inductive Event :=
| TypeInput (v : jsstring)      (* onChange, quick question: setInputValue *)
| SwitchMode (m : ChatMode)     (* onValueChange: setActiveMode *)
| Submit (now : Z)              (* handleSendMessage *)
| Settle (k : nat) (out : FetchOutcome) (now : Z)
| Clear (now : Z).              (* clearChat *)

Definition step (st : State) (e : Event) : State :=
  match e with
  | TypeInput v => setInputValue v st
  | SwitchMode m => setActiveMode m st
  | Submit now => handleSendMessage now st
  | Settle k out now => settle k out now st
  | Clear now => clearChat now st
  end.

Definition run (st : State) (evs : list Event) : State := fold_left step evs st.

Definition reachable (st : State) : Prop :=
  exists t0 evs, st = run (initial t0) evs.

(** [sendMessage(text, mode)] of the specification: the handler run with
    [text] in the input box and [mode] active. *)
Definition sendMessage (text : jsstring) (m : ChatMode) (now : Z) (st : State)
    : State :=
  handleSendMessage now (setInputValue text (setActiveMode m st)).

(** *** Observations *)

Definition typingFlag (m : ChatMessage) : bool :=
  match isTyping m with Some true => true | _ => false end.

Definition typingCount (l : list ChatMessage) : nat :=
  length (filter typingFlag l).

Definition isUser (m : ChatMessage) : bool :=
  match type m with user => true | _ => false end.

Definition isAssistant (m : ChatMessage) : bool :=
  match type m with assistant => true | _ => false end.

(** An assistant entry is orphaned when the entry before it is not the user
    message it answers.  [prevUser] tells whether the preceding entry is a
    user message. *)
Fixpoint orphansFrom (prevUser : bool) (l : list ChatMessage) : nat :=
  match l with
  | [] => O
  | m :: l' =>
      (if isAssistant m && negb prevUser then 1 else 0)%nat
      + orphansFrom (isUser m) l'
  end.

Definition orphans (l : list ChatMessage) : nat := orphansFrom false l.

(** A call is outstanding for mode [m]. *)
Definition outstandingFor (m : ChatMode) (st : State) : bool :=
  existsb (fun o => mode_eqb (o_mode o) m) (outstanding st).

Definition other (m : ChatMode) : ChatMode :=
  match m with customer => internal | internal => customer end.

(** *** Invariant of the component *)

(** Identifier and flag agree on a message: the placeholder, and nothing
    else, carries the identifier ['typing'] and the flag. *)
Definition tagged (m : ChatMessage) : Prop :=
  typingFlag m = negb (notTyping m).

(** A timeline without a placeholder. *)
Definition settled (l : list ChatMessage) : Prop :=
  Forall (fun m => notTyping m = true /\ typingFlag m = false) l.

(** No call is outstanding and no timeline shows a placeholder. *)
Definition idle (st : State) : Prop :=
  outstanding st = [] /\ isLoading st = false
  /\ settled (customerMessages st) /\ settled (internalMessages st).

(** A call [o] is outstanding: the flag is up, the token it captured is
    still the token of its mode, and only its timeline may show a
    placeholder, at most one. *)
Definition busy (o : Outstanding) (st : State) : Prop :=
  outstanding st = [o] /\ isLoading st = true
  /\ o_sessionId o = sessionId (o_mode o) st
  /\ settled (messages (other (o_mode o)) st)
  /\ Forall tagged (messages (o_mode o) st)
  /\ (typingCount (messages (o_mode o) st) <= 1)%nat.

Definition invariant (st : State) : Prop :=
  idle st \/ exists o, busy o st.

(** *** Sequences of complete calls to one mode *)

Record Call := {
  c_text : jsstring;
  c_sent : Z;                 (* clock when the message is sent *)
  c_outcome : FetchOutcome;
  c_settled : Z               (* clock when the gateway call settles *)
}.

(** The call is sent and then settles. *)
Definition complete (m : ChatMode) (st : State) (c : Call) : State :=
  settle (List.length (outstanding st)) (c_outcome c) (c_settled c)
    (sendMessage (c_text c) m (c_sent c) st).

(** The states of one complete call, one per update of a timeline: the user
    message appended, the placeholder appended, the call settled. *)
Definition callStates (m : ChatMode) (st : State) (c : Call) : list State :=
  [ appendUserMessage (c_sent c) (setInputValue (c_text c) (setActiveMode m st));
    sendMessage (c_text c) m (c_sent c) st;
    complete m st c ].

Definition runCalls (m : ChatMode) (st : State) (cs : list Call) : State :=
  fold_left (complete m) cs st.

Fixpoint callsTrace (m : ChatMode) (st : State) (cs : list Call) : list State :=
  match cs with
  | [] => []
  | c :: cs' => callStates m st c ++ callsTrace m (complete m st c) cs'
  end.

(** The gateway call failed: transport error, non-2xx response, or a body
    that is not JSON. *)
Definition failedCall (out : FetchOutcome) : bool :=
  match out with
  | Rejected => true
  | Responded ok _ json =>
      negb ok || match json with None => true | Some _ => false end
  end.

(** *** Frames and shapes *)

(** The mode whose timeline and token an event may change: the active one
    for [handleSendMessage] and [clearChat], the one the call was sent in
    when a call settles, none for the input box and the mode tabs. *)
Definition touches (st : State) (e : Event) : option ChatMode :=
  match e with
  | TypeInput _ | SwitchMode _ => None
  | Submit _ | Clear _ => Some (activeMode st)
  | Settle k _ _ =>
      match nth_error (outstanding st) k with
      | Some o => Some (o_mode o)
      | None => None
      end
  end.

Definition isSystem (m : ChatMessage) : bool :=
  match type m with system => true | _ => false end.

(** A timeline that opens with a system message which is not the
    placeholder, and has no other system message. *)
Definition greeted (l : list ChatMessage) : Prop :=
  match l with
  | [] => False
  | g :: rest =>
      isSystem g = true /\ notTyping g = true
      /\ forallb (fun m => negb (isSystem m)) rest = true
  end.

(** The [disabled] attribute of the Clear button. *)
Definition clearDisabled (st : State) : bool :=
  Nat.leb (List.length (messages (activeMode st) st)) 1.

(** The badge [{messages.filter(m => m.type === 'user').length} queries]. *)
Definition queries (st : State) : nat :=
  List.length (filter isUser (messages (activeMode st) st)).

(** The messages of a timeline that are not the placeholder. *)
Definition finalized (m : ChatMode) (st : State) : list ChatMessage :=
  filter notTyping (messages m st).

Definition isClear (e : Event) : bool :=
  match e with Clear _ => true | _ => false end.


(** *** Example runs *)

Definition okAnswer (a : jsstring) (sid : option jsstring) : FetchOutcome :=
  Responded true (str "OK") (Some {| answer := a; session_id := sid |}).

(** A customer call is outstanding and the user has switched to internal. *)
Definition ex_switched : State :=
  run (initial 0) [TypeInput (str "hi"); Submit 1; SwitchMode internal].

(** A customer call is outstanding and the user has cleared the chat. *)
Definition ex_cleared : State :=
  run (initial 0) [TypeInput (str "hi"); Submit 1; Clear 2].

(** A first customer exchange has stored the token ["abc"]. *)
Definition ex_token : State :=
  run (initial 0)
    [TypeInput (str "hi"); Submit 1;
     Settle 0 (okAnswer (str "yo") (Some (str "abc"))) 2].

End Chat.

(** ** DocumentUpload *)

Module Upload.

Inductive Status := uploading | processing | ready | error.

Definition status_eqb (a b : Status) : bool :=
  match a, b with
  | uploading, uploading | processing, processing
  | ready, ready | error, error => true
  | _, _ => false
  end.

(** [UploadedFile]; the optional [error] text is [errorText], the name
    [error] being the status.  Numbers that carry a progress are rationals
    standing for the doubles of the code.  What is proved about them uses
    only that adding a non-negative amount does not lower a value and that
    the value tested against 100 is the one stored, both of which rounding
    keeps; nothing proved here rests on the exact value of a sum. *)
Record UploadedFile := {
  id : jsstring;
  name : jsstring;
  size : Z;
  status : Status;
  progress : Q;
  uploadedAt : Z;
  errorText : option jsstring
}.

(** [{ ...f, status: s, progress: p }] and [{ ...f, progress: p }]. *)
Definition withStatusProgress (s : Status) (p : Q) (f : UploadedFile)
    : UploadedFile :=
  {| id := id f; name := name f; size := size f; status := s; progress := p;
     uploadedAt := uploadedAt f; errorText := errorText f |}.

Definition withProgress (p : Q) (f : UploadedFile) : UploadedFile :=
  {| id := id f; name := name f; size := size f; status := status f;
     progress := p; uploadedAt := uploadedAt f; errorText := errorText f |}.

(** One call of [simulateFileProcessing(fileId)] and the timer it currently
    holds.  [Uploading] carries the closure variable [progress]. *)
Inductive Driver :=
| Uploading (fileId : jsstring) (progress : Q) (* uploadInterval, every 300 ms *)
| HandOff (fileId : jsstring)                  (* the setTimeout of 1000 ms *)
| Processing (fileId : jsstring)               (* processingInterval, every 500 ms *)
| Stopped (fileId : jsstring).                 (* every timer of the call cleared *)

Definition driverId (d : Driver) : jsstring :=
  match d with
  | Uploading x _ | HandOff x | Processing x | Stopped x => x
  end.

Definition running (d : Driver) : bool :=
  match d with Stopped _ => false | _ => true end.

Record State := {
  files : list UploadedFile;
  drivers : list Driver
}.

Definition empty : State := {| files := []; drivers := [] |}.

(** A file of the [FileList] together with the identifier
    [Math.random().toString(36).substr(2, 9)] drawn for it. *)
Record Selected := {
  s_id : jsstring;
  s_name : jsstring;
  s_size : Z
}.

Definition newFile (now : Z) (s : Selected) : UploadedFile :=
  {| id := s_id s; name := s_name s; size := s_size s; status := uploading;
     progress := 0; uploadedAt := now; errorText := None |}.

(** [simulateFileProcessing]: arms the upload interval with [progress = 0]. *)
Definition simulateFileProcessing (fileId : jsstring) : Driver :=
  Uploading fileId 0.

Definition handleFileUpload (uploadedFiles : option (list Selected)) (now : Z)
    (st : State) : State :=
  match uploadedFiles with
  | None => st
  | Some l =>
      let newFiles := map (newFile now) l in
      {| files := files st ++ newFiles;
         drivers := drivers st
                    ++ map (fun f => simulateFileProcessing (id f)) newFiles |}
  end.

Definition removeFile (fileId : jsstring) (st : State) : State :=
  {| files := filter (fun f => negb (eqb (id f) fileId)) (files st);
     drivers := drivers st |}.

(** The updater of a processing tick: a record of [fileId] that is
    [processing] gets [f.progress + Math.random() * 15], or becomes [ready]
    with progress 100 when that reaches 100; every other record is
    returned as it is.  [rnd k] is the value of the [k]-th call of
    [Math.random()] during the tick; the flag tells whether
    [clearInterval(processingInterval)] ran. *)
Fixpoint processingPass (fileId : jsstring) (rnd : nat -> Q) (k : nat)
    (fs : list UploadedFile) : list UploadedFile * bool :=
  match fs with
  | [] => ([], false)
  | f :: fs' =>
      if eqb (id f) fileId && status_eqb (status f) processing then
        let newProgress := progress f + rnd k * 15 in
        let rest := processingPass fileId rnd (S k) fs' in
        if Qle_bool 100 newProgress
        then (withStatusProgress ready 100 f :: fst rest, true)
        else (withProgress newProgress f :: fst rest, snd rest)
      else
        let rest := processingPass fileId rnd k fs' in
        (f :: fst rest, snd rest)
  end.

(** The callbacks of [simulateFileProcessing]: what the timer held by a
    driver does when it fires, as the new registry and the driver
    afterwards.
    - [uploadInterval]: [progress += Math.random() * 20]; at 100 or more
      the interval is cleared, the records of [fileId] become [processing]
      with progress 0 and the timeout is set; below 100 the records of
      [fileId] get the progress, whatever their status;
    - the timeout: arms [processingInterval];
    - [processingInterval]: the updater [processingPass]. *)
Definition fire (d : Driver) (rnd : nat -> Q) (fs : list UploadedFile)
    : list UploadedFile * Driver :=
  match d with
  | Uploading fileId p =>
      let p' := p + rnd O * 20 in
      if Qle_bool 100 p'
      then (map (fun f => if eqb (id f) fileId
                          then withStatusProgress processing 0 f else f) fs,
            HandOff fileId)
      else (map (fun f => if eqb (id f) fileId
                          then withProgress p' f else f) fs,
            Uploading fileId p')
  | HandOff fileId => (fs, Processing fileId)
  | Processing fileId =>
      let r := processingPass fileId rnd O fs in
      (fst r, if snd r then Stopped fileId else Processing fileId)
  | Stopped fileId => (fs, Stopped fileId)
  end.

Fixpoint setNth {A : Type} (i : nat) (x : A) (l : list A) : list A :=
  match l, i with
  | [], _ => []
  | _ :: l', O => x :: l'
  | y :: l', S i' => y :: setNth i' x l'
  end.

(** The timer of the [i]-th driver fires. *)
Definition tick (i : nat) (rnd : nat -> Q) (st : State) : State :=
  match nth_error (drivers st) i with
  | None => st
  | Some d =>
      let r := fire d rnd (files st) in
      {| files := fst r; drivers := setNth i (snd r) (drivers st) |}
  end.

Inductive Event :=
| AddFiles (uploadedFiles : option (list Selected)) (now : Z)
| RemoveFile (fileId : jsstring)
| Tick (i : nat) (rnd : nat -> Q).

Definition step (st : State) (e : Event) : State :=
  match e with
  | AddFiles l now => handleFileUpload l now st
  | RemoveFile x => removeFile x st
  | Tick i rnd => tick i rnd st
  end.

Definition run (st : State) (evs : list Event) : State := fold_left step evs st.

(** The states a run goes through, the first one included. *)
Fixpoint states (st : State) (evs : list Event) : list State :=
  st :: match evs with
        | [] => []
        | e :: evs' => states (step st e) evs'
        end.

(** Identifiers in use: of a record or of a driver. *)
Definition usedIds (st : State) : list jsstring :=
  map id (files st) ++ map driverId (drivers st).

(** What the environment guarantees for an event: [Math.random()] lies in
    [0, 1), and the identifiers drawn for new files are fresh. *)
Definition validEvent (st : State) (e : Event) : Prop :=
  match e with
  | AddFiles None _ => True
  | AddFiles (Some l) _ =>
      NoDup (map s_id l) /\ forall x, In x (map s_id l) -> ~ In x (usedIds st)
  | RemoveFile _ => True
  | Tick _ rnd => forall k, 0 <= rnd k /\ rnd k < 1
  end.

Fixpoint validRun (st : State) (evs : list Event) : Prop :=
  match evs with
  | [] => True
  | e :: evs' => validEvent st e /\ validRun (step st e) evs'
  end.

Definition lookup (x : jsstring) (fs : list UploadedFile) : option UploadedFile :=
  find (fun f => eqb (id f) x) fs.

(** The record of [x] in a state, if there is one. *)
Definition snapshot (x : jsstring) (st : State) : list UploadedFile :=
  match lookup x (files st) with
  | Some f => [f]
  | None => []
  end.

(** The successive snapshots of the record [x] along a run. *)
Definition history (x : jsstring) (st : State) (evs : list Event)
    : list UploadedFile :=
  flat_map (snapshot x) (states st evs).

(** [R] holds between every snapshot and the next. *)
Fixpoint chain {A : Type} (R : A -> A -> Prop) (l : list A) : Prop :=
  match l with
  | a :: (b :: _) as t => R a b /\ chain R t
  | _ => True
  end.

(** Number of [uploading] to [processing] transitions in a history. *)
Fixpoint resets (l : list UploadedFile) : nat :=
  match l with
  | a :: (b :: _) as t =>
      ((if status_eqb (status a) uploading && status_eqb (status b) processing
        then 1 else 0) + resets t)%nat
  | _ => O
  end.

(** No driver of [x] holds a timer. *)
Definition halted (x : jsstring) (st : State) : bool :=
  forallb (fun d => negb (eqb (driverId d) x && running d)) (drivers st).

Definition hasRecord (x : jsstring) (st : State) : bool :=
  existsb (fun f => eqb (id f) x) (files st).

(** *** Fields a driver never writes *)

(** The fields of a record other than [status] and [progress]. *)
Definition static (f : UploadedFile)
    : jsstring * jsstring * Z * Z * option jsstring :=
  (id f, name f, size f, uploadedAt f, errorText f).

(** One step of the status: it stays, or moves from [uploading] to
    [processing], or from [processing] to [ready]. *)
Definition nextStatus (a b : Status) : Prop :=
  b = a \/ (a = uploading /\ b = processing) \/ (a = processing /\ b = ready).

(** What the file list renders for a record: the progress bar while it is
    [uploading] or [processing], the alert when it is in [error] with a
    text. *)
Definition showsProgress (f : UploadedFile) : bool :=
  status_eqb (status f) uploading || status_eqb (status f) processing.

Definition showsAlert (f : UploadedFile) : bool :=
  status_eqb (status f) error && opt_truthy (errorText f).


(** *** Passes over the registry *)

(** [fs'] differs from [fs] at most in the records of [x], and not in
    their identifier. *)
Definition only (x : jsstring) (fs fs' : list UploadedFile) : Prop :=
  Forall2 (fun a b => id a = id b /\ (id a <> x -> a = b)) fs fs'.

(** The records of [x] taken from [X], the others from [F]. *)
Fixpoint merge (x : jsstring) (X F : list UploadedFile) : list UploadedFile :=
  match X, F with
  | a :: X', b :: F' => (if eqb (id a) x then a else b) :: merge x X' F'
  | _, _ => []
  end.


(** *** Invariant of the registry *)

(** The record of an identifier is where its driver left it. *)
Definition agrees (d : Driver) (f : UploadedFile) : Prop :=
  match d with
  | Uploading _ p =>
      status f = uploading /\ progress f = p /\ 0 <= p /\ p < 100
  | HandOff _ => status f = processing /\ progress f = 0
  | Processing _ =>
      status f = processing /\ 0 <= progress f /\ progress f < 100
  | Stopped _ => status f = ready /\ progress f = 100
  end.

(** Identifiers name one record and one driver, and every record has its
    driver. *)
Definition wf (st : State) : Prop :=
  NoDup (map id (files st))
  /\ NoDup (map driverId (drivers st))
  /\ (forall x f, lookup x (files st) = Some f ->
      exists d, In d (drivers st) /\ driverId d = x /\ agrees d f).

(** The record of [x] was removed while its driver stayed. *)
Definition retired (x : jsstring) (st : State) : Prop :=
  lookup x (files st) = None /\ In x (map driverId (drivers st)).

Definition bounded (f : UploadedFile) : Prop :=
  0 <= progress f /\ progress f <= 100.

(** How a record may differ from one snapshot to the next. *)
Definition advances (a b : UploadedFile) : Prop :=
  (status a = status b /\ progress a <= progress b)
  \/ (status a = uploading /\ status b = processing /\ progress b = 0)
  \/ (status a = processing /\ status b = ready /\ progress b = 100).

(** [st'] may follow [st]: the invariant holds in it, a record present in
    [st] has advanced or was removed for good, and an identifier not yet in
    use is still unused or names a record that has just been created. *)
Definition follows (st st' : State) : Prop :=
  wf st'
  /\ (forall x a, lookup x (files st) = Some a ->
      (exists b, lookup x (files st') = Some b /\ advances a b)
      \/ retired x st')
  /\ (forall x, retired x st -> retired x st')
  /\ (forall x, ~ In x (usedIds st) ->
      match lookup x (files st') with
      | Some b => status b = uploading /\ progress b = 0
      | None => ~ In x (usedIds st')
      end).

(** The event is a tick of a driver of [x]. *)
Definition firesDriverOf (x : jsstring) (st : State) (e : Event) : Prop :=
  match e with
  | Tick i _ => exists d, nth_error (drivers st) i = Some d /\ driverId d = x
  | _ => False
  end.

(** *** Example runs *)

Definition half : nat -> Q := fun _ => 1 # 2.

Definition ex_selected : Selected :=
  {| s_id := str "k3x9"; s_name := str "handbook.pdf"; s_size := 2000000 |}.

(** One file is added; ten ticks of the upload interval, the hand-off and
    one tick of the processing interval follow. *)
Definition ex_run : list Event :=
  AddFiles (Some [ex_selected]) 0 :: repeat (Tick 0 half) 12.

Definition ex_selected2 : Selected :=
  {| s_id := str "q7m2"; s_name := str "fees.docx"; s_size := 48211 |}.

(** Two files were added together. *)
Definition ex_pair : State :=
  handleFileUpload (Some [ex_selected; ex_selected2]) 0 empty.


(** One file was added and at once removed. *)
Definition ex_removed : State :=
  run empty [AddFiles (Some [ex_selected]) 0; RemoveFile (str "k3x9")].



End Upload.

(** ** DocumentManagement *)

Module Catalog.

Record Document := {
  chunks_count : Z;
  id : Z;
  source : jsstring;
  doc_type : jsstring;
  namespace : jsstring;
  created_at : jsstring;
  content_preview : jsstring
}.

Record ApiResponse := {
  api_documents : list Document;
  total : Z;
  limit : Z;
  offset : Z
}.

Record State := {
  documents : list Document;
  loading : bool;
  error : option jsstring;
  searchTerm : jsstring;
  statusFilter : jsstring;
  typeFilter : jsstring
}.

Definition initial : State :=
  {| documents := []; loading := true; error := None; searchTerm := [];
     statusFilter := str "all"; typeFilter := str "all" |}.

(** A thrown value as the [catch] clause sees it. *)
Inductive Thrown :=
| ErrorObject (message : jsstring)   (* [err instanceof Error] *)
| OtherValue.

(** What the awaited [fetch] of the listing endpoint does; the body is the
    parsed JSON or what [response.json()] rejects with. *)
Inductive FetchOutcome :=
| Rejected (err : Thrown)
| Responded (ok : bool) (statusText : jsstring) (json : Thrown + ApiResponse).

(** The [try] body after [fetch]: the data, or the value thrown. *)
Definition tryBody (out : FetchOutcome) : Thrown + ApiResponse :=
  match out with
  | Rejected err => inl err
  | Responded false statusText _ =>
      inl (ErrorObject (str "Failed to fetch documents: " ++ statusText))
  | Responded true _ json => json
  end.

(** [fetchDocuments] up to its [await]. *)
Definition fetchDocuments_start (st : State) : State :=
  {| documents := documents st; loading := true; error := None;
     searchTerm := searchTerm st; statusFilter := statusFilter st;
     typeFilter := typeFilter st |}.

(** [fetchDocuments] after its [await]. *)
Definition fetchDocuments_resume (out : FetchOutcome) (st : State) : State :=
  match tryBody out with
  | inr data =>
      {| documents := api_documents data; loading := false; error := error st;
         searchTerm := searchTerm st; statusFilter := statusFilter st;
         typeFilter := typeFilter st |}
  | inl err =>
      {| documents := documents st; loading := false;
         error := Some match err with
                       | ErrorObject message => message
                       | OtherValue => str "Failed to fetch documents"
                       end;
         searchTerm := searchTerm st; statusFilter := statusFilter st;
         typeFilter := typeFilter st |}
  end.





(** *** The filtered list *)

(** [s.startsWith(t)] and [s.includes(t)] on code units. *)
Fixpoint startsWith (s t : jsstring) : bool :=
  match t, s with
  | [], _ => true
  | d :: t', c :: s' => N.eqb c d && startsWith s' t'
  | _ :: _, [] => false
  end.


Definition setSearchTerm (v : jsstring) (st : State) : State :=
  {| documents := documents st; loading := loading st; error := error st;
     searchTerm := v; statusFilter := statusFilter st;
     typeFilter := typeFilter st |}.

Section Filter.

(** [String.prototype.toLowerCase], the case mapping of the runtime. *)
Variable toLowerCase : jsstring -> jsstring.






End Filter.


(** Events of the component: typing in the search box, and the fetch
    started on mount settling. *)
Inductive Event :=
| SearchInput (v : jsstring)
| FetchSettles (out : FetchOutcome).

Definition step (st : State) (e : Event) : State :=
  match e with
  | SearchInput v => setSearchTerm v st
  | FetchSettles out => fetchDocuments_resume out st
  end.

(** The states after mount: the effect has run [fetchDocuments] up to its
    [await]. *)
Definition reachable (st : State) : Prop :=
  exists evs, st = fold_left step evs (fetchDocuments_start initial).




End Catalog.

(** * Properties *)

(** ** Strings *)

Module JSFacts.

Lemma eqb_eq (s t : jsstring) : eqb s t = true <-> s = t.
Proof.
  revert t; induction s as [|c s IH]; intros [|d t]; simpl;
    try (split; [discriminate | discriminate]); try tauto.
  rewrite andb_true_iff, N.eqb_eq, IH.
  split; [intros [-> ->]; reflexivity | intros H; inversion H; auto].
Qed.

Lemma eqb_refl (s : jsstring) : eqb s s = true.
Proof. apply eqb_eq; reflexivity. Qed.

Lemma eqb_neq (s t : jsstring) : eqb s t = false <-> s <> t.
Proof.
  rewrite <- eqb_eq. destruct (eqb s t); split; congruence.
Qed.

Lemma opt_eqb_eq (a b : option jsstring) : opt_eqb a b = true <-> a = b.
Proof.
  destruct a as [s|], b as [t|]; simpl; try (split; congruence).
  rewrite eqb_eq. split; congruence.
Qed.

Lemma opt_eqb_neq (a b : option jsstring) : opt_eqb a b = false <-> a <> b.
Proof.
  rewrite <- opt_eqb_eq. destruct (opt_eqb a b); split; congruence.
Qed.

Lemma truthy_false (s : jsstring) : truthy s = false <-> s = [].
Proof. destruct s; simpl; split; congruence. Qed.

(** A decimal numeral is never the identifier of the placeholder. *)
Lemma toString_not_typing (z : Z) : eqb (toString z) (str "typing") = false.
Proof.
  unfold toString.
  destruct z as [|p|p]; simpl; try reflexivity.
  unfold NilZero.string_of_uint.
  destruct (Pos.to_uint p); reflexivity.
Qed.


(** [trimStart] leaves nothing exactly when every code unit is white
    space. *)
Lemma trimStart_nil (s : jsstring) :
  trimStart s = [] <-> forallb isWhiteSpace s = true.
Proof.
  induction s as [|c s IH]; simpl; [tauto|].
  destruct (isWhiteSpace c); simpl; [exact IH | split; discriminate].
Qed.

Lemma trimStart_head (s : jsstring) c t :
  trimStart s = c :: t -> isWhiteSpace c = false.
Proof.
  induction s as [|d s IH]; simpl; [discriminate|].
  destruct (isWhiteSpace d) eqn:E; [exact IH|].
  intros H; inversion H; subst. exact E.
Qed.

Lemma trimStart_suffix (s : jsstring) :
  exists pre, s = pre ++ trimStart s /\ forallb isWhiteSpace pre = true.
Proof.
  induction s as [|c s (pre & E & Hpre)]; simpl.
  - exists []. split; reflexivity.
  - destruct (isWhiteSpace c) eqn:Ec.
    + exists (c :: pre). simpl. rewrite Ec, Hpre. split; [f_equal; exact E | reflexivity].
    + exists []. split; reflexivity.
Qed.

(** [trim] leaves nothing exactly when every code unit is white space. *)
Lemma trim_nil (s : jsstring) :
  trim s = [] <-> forallb isWhiteSpace s = true.
Proof.
  unfold trim, trimEnd. rewrite <- trimStart_nil.
  destruct (trimStart s) as [|c t] eqn:E; [split; reflexivity|].
  split; [|discriminate].
  intros H. apply (f_equal (@rev N)) in H. rewrite rev_involutive in H.
  simpl in H. apply trimStart_nil in H.
  rewrite forallb_app in H. simpl in H.
  rewrite (trimStart_head s E) in H.
  rewrite andb_false_r in H. discriminate.
Qed.

End JSFacts.

(** ** ChatInterface *)

Module ChatFacts.

Import JSFacts Chat.

(** *** Setters and projections *)

Lemma messages_setMessages (m : ChatMode) f st :
  messages m (setMessages m f st) = f (messages m st).
Proof. destruct m; reflexivity. Qed.

Lemma messages_setMessages_other (m : ChatMode) f st :
  messages (other m) (setMessages m f st) = messages (other m) st.
Proof. destruct m; reflexivity. Qed.

Lemma sessionId_setMessages (m m' : ChatMode) f st :
  sessionId m' (setMessages m f st) = sessionId m' st.
Proof. destruct m, m'; reflexivity. Qed.

Lemma sessionId_setSessionId (m : ChatMode) v st :
  sessionId m (setSessionId m v st) = v.
Proof. destruct m; reflexivity. Qed.

Lemma sessionId_setSessionId_other (m : ChatMode) v st :
  sessionId (other m) (setSessionId m v st) = sessionId (other m) st.
Proof. destruct m; reflexivity. Qed.

Lemma messages_setSessionId (m m' : ChatMode) v st :
  messages m' (setSessionId m v st) = messages m' st.
Proof. destruct m, m'; reflexivity. Qed.

Lemma other_involutive (m : ChatMode) : other (other m) = m.
Proof. destruct m; reflexivity. Qed.

Lemma mode_cases (a m : ChatMode) : a = m \/ a = other m.
Proof. destruct a, m; auto. Qed.

Lemma other_neq (m : ChatMode) : other m <> m.
Proof. destruct m; discriminate. Qed.

(** *** Placeholders in a timeline *)

Lemma typingCount_app (l l' : list ChatMessage) :
  typingCount (l ++ l') = (typingCount l + typingCount l')%nat.
Proof. unfold typingCount. rewrite filter_app, length_app. reflexivity. Qed.

Lemma settled_app (l l' : list ChatMessage) :
  settled (l ++ l') <-> settled l /\ settled l'.
Proof. apply Forall_app. Qed.

Lemma settled_tagged (l : list ChatMessage) : settled l -> Forall tagged l.
Proof.
  apply Forall_impl. intros m [Hn Hf]. unfold tagged. rewrite Hn, Hf. reflexivity.
Qed.

Lemma settled_count (l : list ChatMessage) : settled l -> typingCount l = O.
Proof.
  unfold typingCount.
  induction 1 as [|m l [_ Hf] _ IH]; simpl; [reflexivity|].
  rewrite Hf. exact IH.
Qed.

Lemma settled_filter (l : list ChatMessage) : settled l -> filter notTyping l = l.
Proof.
  induction 1 as [|m l [Hn _] _ IH]; simpl; [reflexivity|].
  rewrite Hn, IH. reflexivity.
Qed.

Lemma tagged_filter_settled (l : list ChatMessage) :
  Forall tagged l -> settled (filter notTyping l).
Proof.
  induction 1 as [|m l Hm _ IH]; simpl; [constructor|].
  destruct (notTyping m) eqn:Hn; [|exact IH].
  constructor; [|exact IH].
  split; [exact Hn|]. unfold tagged in Hm. rewrite Hn in Hm. exact Hm.
Qed.

Lemma tagged_count_settled (l : list ChatMessage) :
  Forall tagged l -> typingCount l = O -> settled l.
Proof.
  unfold typingCount.
  induction 1 as [|m l Hm _ IH]; simpl; [constructor|].
  unfold tagged in Hm.
  destruct (typingFlag m) eqn:Hf; simpl; [discriminate|].
  intros H0. constructor; [|exact (IH H0)].
  split; [|exact Hf]. destruct (notTyping m); [reflexivity|discriminate].
Qed.

Lemma settled_userMessage now text : settled [userMessage now text].
Proof.
  repeat constructor. unfold notTyping; simpl.
  rewrite toString_not_typing. reflexivity.
Qed.

Lemma settled_assistantMessage now text : settled [assistantMessage now text].
Proof.
  repeat constructor. unfold notTyping; simpl.
  rewrite toString_not_typing. reflexivity.
Qed.

Lemma settled_welcomeMessage m now : settled [welcomeMessage m now].
Proof.
  repeat constructor. unfold notTyping; simpl.
  rewrite toString_not_typing. reflexivity.
Qed.

Lemma tagged_typingMessage now : tagged (typingMessage now).
Proof. reflexivity. Qed.

Lemma settled_initial t0 m : settled (messages m (initial t0)).
Proof. destruct m; repeat constructor. Qed.

(** *** The guard of handleSendMessage *)

Lemma skips_false st :
  skips st = false <-> trim (inputValue st) <> [] /\ isLoading st = false.
Proof.
  unfold skips. rewrite orb_false_iff, negb_false_iff.
  split; intros [H1 H2]; split; auto.
  - intros E. rewrite E in H1. discriminate.
  - destruct (trim (inputValue st)); [congruence | reflexivity].
Qed.

Lemma skips_true st :
  skips st = true <-> trim (inputValue st) = [] \/ isLoading st = true.
Proof.
  unfold skips. rewrite orb_true_iff, negb_true_iff, truthy_false. tauto.
Qed.

(** What an accepted call leaves behind. *)
Lemma handleSendMessage_accepted now st :
  skips st = false ->
  let st' := handleSendMessage now st in
  outstanding st' =
    outstanding st ++ [ {| o_mode := activeMode st;
                           o_sessionId := sessionId (activeMode st) st;
                           o_query := inputValue st |} ]
  /\ isLoading st' = true
  /\ inputValue st' = []
  /\ activeMode st' = activeMode st
  /\ messages (activeMode st) st' =
       messages (activeMode st) st
       ++ [userMessage now (inputValue st); typingMessage now]
  /\ messages (other (activeMode st)) st' = messages (other (activeMode st)) st
  /\ customerSessionId st' = customerSessionId st
  /\ internalSessionId st' = internalSessionId st.
Proof.
  intros Hs. unfold handleSendMessage. rewrite Hs.
  unfold appendTyping, appendUserMessage.
  destruct (activeMode st) eqn:E; simpl; rewrite ?E; simpl;
    rewrite <- ?app_assoc; simpl; repeat split; reflexivity.
Qed.

(** What a settled call leaves behind. *)
Lemma resume_effect o out now st :
  let st' := resume o out now st in
  let final := assistantMessage now
                 match sendMessageToAPI out with
                 | Some result => answer result
                 | None => failureNotice
                 end in
  messages (o_mode o) st' = filter notTyping (messages (o_mode o) st) ++ [final]
  /\ messages (other (o_mode o)) st' = messages (other (o_mode o)) st
  /\ isLoading st' = false
  /\ activeMode st' = activeMode st
  /\ inputValue st' = inputValue st
  /\ outstanding st' = outstanding st.
Proof.
  unfold resume.
  destruct (sendMessageToAPI out) as [result|]; simpl.
  - destruct (opt_truthy (session_id result)
              && negb (opt_eqb (session_id result) (o_sessionId o)));
      destruct (o_mode o); simpl; repeat split; reflexivity.
  - destruct (o_mode o); simpl; repeat split; reflexivity.
Qed.

Lemma resume_tokens o out now st :
  let st' := resume o out now st in
  sessionId (other (o_mode o)) st' = sessionId (other (o_mode o)) st
  /\ sessionId (o_mode o) st' =
       match sendMessageToAPI out with
       | Some result =>
           if opt_truthy (session_id result)
              && negb (opt_eqb (session_id result) (o_sessionId o))
           then session_id result
           else sessionId (o_mode o) st
       | None => sessionId (o_mode o) st
       end.
Proof.
  unfold resume.
  destruct (sendMessageToAPI out) as [result|]; simpl.
  - destruct (opt_truthy (session_id result)
              && negb (opt_eqb (session_id result) (o_sessionId o)));
      destruct (o_mode o); simpl; split; reflexivity.
  - destruct (o_mode o); simpl; split; reflexivity.
Qed.


(** *** The invariant holds in every reachable state *)

Lemma idle_initial t0 : idle (initial t0).
Proof.
  repeat split; try reflexivity.
  - exact (settled_initial t0 customer).
  - exact (settled_initial t0 internal).
Qed.

Lemma idle_settled st m : idle st -> settled (messages m st).
Proof. intros (_ & _ & Hc & Hi). destruct m; assumption. Qed.

Lemma idle_accepts now st :
  idle st -> trim (inputValue st) <> [] ->
  busy {| o_mode := activeMode st;
          o_sessionId := sessionId (activeMode st) st;
          o_query := inputValue st |} (handleSendMessage now st).
Proof.
  intros Hidle Htext.
  assert (Hs : skips st = false).
  { apply skips_false. split; [exact Htext | apply Hidle]. }
  destruct (handleSendMessage_accepted now st Hs)
    as (Ho & Hl & _ & _ & Hm & Hm' & Hc & Hi).
  assert (Hidle' : forall m, settled (messages m st)).
  { intros m. apply idle_settled, Hidle. }
  destruct Hidle as (Hout & _ & _).
  unfold busy; simpl.
  rewrite Ho, Hout, Hm, Hm'. repeat split.
  - exact Hl.
  - destruct (activeMode st); simpl; congruence.
  - apply Hidle'.
  - apply Forall_app. split; [apply settled_tagged, Hidle'|].
    constructor; [|constructor; [apply tagged_typingMessage | constructor]].
    exact (Forall_inv (settled_tagged (settled_userMessage now (inputValue st)))).
  - rewrite typingCount_app, (settled_count (Hidle' _)). simpl.
    unfold typingCount; simpl. lia.
Qed.

Lemma busy_settles o out now st :
  busy o st -> idle (settle O out now st).
Proof.
  intros (Hout & _ & _ & Hother & Htag & _).
  unfold settle. rewrite Hout; simpl.
  destruct (resume_effect o out now st) as (Hm & Hm' & Hl & _ & _ & _).
  remember (resume o out now st) as st' eqn:E. clear E.
  assert (H : forall m, settled (messages m st')).
  { intros m. destruct (mode_cases m (o_mode o)) as [-> | ->].
    - rewrite Hm. apply settled_app. split.
      + apply tagged_filter_settled, Htag.
      + apply settled_assistantMessage.
    - rewrite Hm'. exact Hother. }
  unfold idle; simpl. repeat split.
  - exact Hl.
  - exact (H customer).
  - exact (H internal).
Qed.

Lemma invariant_step st e : invariant st -> invariant (step st e).
Proof.
  intros Hinv. destruct e as [v | m | now | k out now | now]; simpl.
  - (* setInputValue *) exact Hinv.
  - (* setActiveMode *) exact Hinv.
  - (* handleSendMessage *)
    destruct (skips st) eqn:Hs.
    + unfold handleSendMessage. rewrite Hs. exact Hinv.
    + apply skips_false in Hs. destruct Hs as [Htext Hload].
      destruct Hinv as [Hidle | [o Hbusy]].
      * right. eexists. apply idle_accepts; assumption.
      * destruct Hbusy as (_ & Hl & _). congruence.
  - (* the call settles *)
    destruct Hinv as [Hidle | [o Hbusy]].
    + unfold settle. destruct Hidle as (Hout & Hrest). rewrite Hout.
      destruct k; simpl; left; repeat split; tauto.
    + destruct k as [|k].
      * left. eapply busy_settles; eassumption.
      * unfold settle. destruct Hbusy as (Hout & Hrest). rewrite Hout.
        destruct k; simpl; right; exists o; repeat split; tauto.
  - (* clearChat *)
    unfold clearChat.
    destruct Hinv as [Hidle | [o Hbusy]].
    + left. destruct Hidle as (Hout & Hl & Hc & Hi).
      destruct (activeMode st); unfold idle; simpl; repeat split;
        try assumption; apply settled_welcomeMessage.
    + right. exists o.
      destruct Hbusy as (Hout & Hl & Htok & Hother & Htag & Hcount).
      unfold busy.
      destruct (activeMode st); destruct (o_mode o) eqn:Eo; simpl in *;
        repeat split; try assumption;
        try apply settled_welcomeMessage;
        try (apply settled_tagged, settled_welcomeMessage);
        unfold typingCount; simpl; lia.
Qed.

Lemma invariant_run evs : forall st, invariant st -> invariant (run st evs).
Proof.
  induction evs as [|e evs IH]; intros st H; simpl; [exact H|].
  apply IH, invariant_step, H.
Qed.

Lemma reachable_invariant st : reachable st -> invariant st.
Proof.
  intros (t0 & evs & ->). apply invariant_run. left. apply idle_initial.
Qed.

Lemma reachable_step st e : reachable st -> reachable (step st e).
Proof.
  intros (t0 & evs & ->). exists t0, (evs ++ [e]).
  unfold run. rewrite fold_left_app. reflexivity.
Qed.

(** In every reachable state a timeline shows at most one placeholder. *)
Lemma reachable_single_placeholder st m :
  reachable st -> (typingCount (messages m st) <= 1)%nat.
Proof.
  intros H. destruct (reachable_invariant H) as [Hidle | [o Hbusy]].
  - rewrite (settled_count (idle_settled m Hidle)). lia.
  - destruct Hbusy as (_ & _ & _ & Hother & _ & Hcount).
    destruct (mode_cases m (o_mode o)) as [-> | ->]; [exact Hcount|].
    rewrite (settled_count Hother). lia.
Qed.

(** The loading flag is up exactly while a call is outstanding, and never
    more than one is. *)
Lemma reachable_loading st :
  reachable st ->
  (isLoading st = true <-> outstanding st <> [])
  /\ (List.length (outstanding st) <= 1)%nat.
Proof.
  intros H. destruct (reachable_invariant H) as [Hidle | [o Hbusy]].
  - destruct Hidle as (Hout & Hl & _). rewrite Hout, Hl. simpl.
    split; [split; congruence | lia].
  - destruct Hbusy as (Hout & Hl & _). rewrite Hout, Hl. simpl.
    split; [split; congruence | lia].
Qed.


(** *** One complete exchange from an idle state *)

Lemma messages_setOutstanding m l st :
  messages m (setOutstanding l st) = messages m st.
Proof. destruct m; reflexivity. Qed.

Lemma sessionId_setOutstanding m l st :
  sessionId m (setOutstanding l st) = sessionId m st.
Proof. destruct m; reflexivity. Qed.

Lemma idle_typed text m st :
  idle st -> idle (setInputValue text (setActiveMode m st)).
Proof. intros H; exact H. Qed.

Lemma exchange text m now out now' st :
  idle st -> trim text <> [] ->
  let st1 := sendMessage text m now st in
  let st2 := settle O out now' st1 in
  let final := assistantMessage now'
                 match sendMessageToAPI out with
                 | Some result => answer result
                 | None => failureNotice
                 end in
  messages m st1 = messages m st ++ [userMessage now text; typingMessage now]
  /\ messages m st2 = messages m st ++ [userMessage now text; final]
  /\ messages (other m) st2 = messages (other m) st
  /\ sessionId (other m) st2 = sessionId (other m) st
  /\ sessionId m st2 =
       match sendMessageToAPI out with
       | Some result =>
           if opt_truthy (session_id result)
              && negb (opt_eqb (session_id result) (sessionId m st))
           then session_id result
           else sessionId m st
       | None => sessionId m st
       end
  /\ idle st2
  /\ outstanding st1 <> [].
Proof.
  intros Hidle Htext st1 st2 final.
  set (st0 := setInputValue text (setActiveMode m st)).
  assert (Hidle0 : idle st0) by exact (idle_typed text m Hidle).
  assert (Hs : skips st0 = false).
  { apply skips_false. split; [exact Htext | apply Hidle]. }
  assert (Hbusy := idle_accepts now Hidle0 Htext).
  destruct (handleSendMessage_accepted now st0 Hs)
    as (Ho & _ & _ & _ & Hm & Hm' & Hc & Hi).
  change (handleSendMessage now st0) with st1 in *.
  change (activeMode st0) with m in *.
  change (inputValue st0) with text in *.
  change (outstanding st0) with (outstanding st) in Ho.
  replace (messages m st0) with (messages m st) in Hm
    by (destruct m; reflexivity).
  replace (messages (other m) st0) with (messages (other m) st) in Hm'
    by (destruct m; reflexivity).
  replace (sessionId m st0) with (sessionId m st) in *
    by (destruct m; reflexivity).
  assert (Hout : outstanding st = []) by apply Hidle.
  rewrite Hout in Ho; simpl in Ho.
  set (o := {| o_mode := m; o_sessionId := sessionId m st; o_query := text |}) in *.
  assert (Hst2 : st2 = setOutstanding [] (resume o out now' st1)).
  { unfold st2, settle. rewrite Ho. reflexivity. }
  destruct (resume_effect o out now' st1) as (Hr & Hr' & _).
  destruct (resume_tokens o out now' st1) as (Ht' & Ht).
  change (o_mode o) with m in *. change (o_sessionId o) with (sessionId m st) in *.
  assert (Htok : forall m', sessionId m' st1 = sessionId m' st).
  { intros [|]; simpl; assumption. }
  split; [exact Hm|].
  split.
  { rewrite Hst2, messages_setOutstanding, Hr, Hm.
    rewrite filter_app, (settled_filter (idle_settled m Hidle)).
    simpl. unfold notTyping at 1; simpl. rewrite toString_not_typing; simpl.
    rewrite <- app_assoc. reflexivity. }
  split.
  { rewrite Hst2, messages_setOutstanding, Hr', Hm'. reflexivity. }
  split.
  { rewrite Hst2, sessionId_setOutstanding, Ht', Htok. reflexivity. }
  split.
  { rewrite Hst2, sessionId_setOutstanding, Ht.
    destruct (sendMessageToAPI out); rewrite ?Htok; reflexivity. }
  split.
  { exact (busy_settles out now' Hbusy). }
  rewrite Ho. discriminate.
Qed.


(** *** Claims on sendMessage *)

(** C2, as the code has it: [sendMessage(text, mode)] is skipped exactly
    when [text] is empty after trimming or a call is outstanding, whatever
    its mode; the loading flag is shared by the two modes, so at most one
    call is outstanding at any time. *)
Theorem sendMessage_skipped_iff text m now st :
  reachable st ->
  (sendMessage text m now st = setInputValue text (setActiveMode m st)
   <-> trim text = [] \/ outstanding st <> [])
  /\ (List.length (outstanding st) <= 1)%nat.
Proof.
  intros Hr. destruct (reachable_loading Hr) as [Hload Hlen].
  split; [|exact Hlen].
  set (st0 := setInputValue text (setActiveMode m st)).
  unfold sendMessage. fold st0.
  destruct (skips st0) eqn:Hs.
  - split.
    + intros _. apply skips_true in Hs. destruct Hs as [H | H]; [left; exact H|].
      right. apply Hload. exact H.
    + intros _. unfold handleSendMessage. rewrite Hs. reflexivity.
  - split.
    + intros E.
      destruct (handleSendMessage_accepted now st0 Hs) as (Ho & _).
      rewrite E in Ho. apply (f_equal (@List.length _)) in Ho.
      rewrite length_app in Ho. simpl in Ho. lia.
    + apply skips_false in Hs. destruct Hs as [Htext Hl].
      intros [H | H]; [contradiction|].
      apply Hload in H. change (isLoading st0) with (isLoading st) in Hl.
      congruence.
Qed.

Lemma sendMessage_skipped_iff_witness :
  reachable ex_switched
  /\ ((sendMessage (str "hello") internal 2 ex_switched
       = setInputValue (str "hello") (setActiveMode internal ex_switched)
       <-> trim (str "hello") = [] \/ outstanding ex_switched <> [])
      /\ (List.length (outstanding ex_switched) <= 1)%nat).
Proof.
  assert (H : reachable ex_switched).
  { exists 0%Z, [TypeInput (str "hi"); Submit 1; SwitchMode internal].
    reflexivity. }
  split; [exact H|].
  exact (@sendMessage_skipped_iff (str "hello") internal 2 ex_switched H).
Defined.

(** C2 as stated fails: with a customer call outstanding, a non-empty
    message to the internal mode, which has no call outstanding, is
    skipped. *)
Lemma other_mode_call_blocks :
  ~ (sendMessage (str "hello") internal 2 ex_switched
     = setInputValue (str "hello") (setActiveMode internal ex_switched)
     <-> trim (str "hello") = [] \/ outstandingFor internal ex_switched = true).
Proof.
  intros [H _].
  assert (E : sendMessage (str "hello") internal 2 ex_switched
              = setInputValue (str "hello") (setActiveMode internal ex_switched))
    by reflexivity.
  destruct (H E) as [H' | H']; vm_compute in H'; discriminate.
Qed.

Lemma orphans_after_system g final :
  type g = system -> type final = assistant -> orphans [g; final] = 1%nat.
Proof.
  intros Hg Hf. unfold orphans, orphansFrom, isAssistant, isUser.
  rewrite Hg, Hf. reflexivity.
Qed.

(** C3, as the code has it: whatever mode is visible and whether or not
    the chat was cleared in the meantime, the settled call touches only the
    timeline of the mode it was sent in: placeholders are filtered out of
    it and one final assistant message is appended.  After a clear there
    is no placeholder left, and the final message is appended all the same,
    directly behind the fresh greeting, without the user message it
    answers. *)
Theorem settle_routes_to_originating_mode st k o out now :
  reachable st -> nth_error (outstanding st) k = Some o ->
  let st' := settle k out now st in
  let final := assistantMessage now
                 match sendMessageToAPI out with
                 | Some result => answer result
                 | None => failureNotice
                 end in
  messages (o_mode o) st' = filter notTyping (messages (o_mode o) st) ++ [final]
  /\ messages (other (o_mode o)) st' = messages (other (o_mode o)) st
  /\ (activeMode st <> o_mode o ->
      messages (activeMode st) st' = messages (activeMode st) st)
  /\ typingCount (messages (o_mode o) st') = O
  /\ (typingCount (messages (o_mode o) st) = O ->
      messages (o_mode o) st' = messages (o_mode o) st ++ [final])
  /\ (forall g, messages (o_mode o) st = [g] ->
      type g = system -> typingFlag g = false ->
      messages (o_mode o) st' = [g; final] /\ orphans [g; final] = 1%nat).
Proof.
  intros Hr Hk st' final.
  destruct (reachable_invariant Hr) as [Hidle | [o' Hbusy]].
  { destruct Hidle as (Hout & _). rewrite Hout in Hk.
    destruct k; discriminate. }
  assert (Hout : outstanding st = [o']) by apply Hbusy.
  assert (Hko : k = O /\ o' = o).
  { rewrite Hout in Hk. destruct k as [|k]; simpl in Hk.
    - split; congruence.
    - destruct k; discriminate. }
  destruct Hko as [-> ->].
  destruct Hbusy as (_ & _ & _ & Hother & Htag & _).
  assert (Hst' : st' = setOutstanding [] (resume o out now st)).
  { unfold st', settle. rewrite Hout. reflexivity. }
  destruct (resume_effect o out now st) as (Hm & Hm' & _).
  assert (E1 : messages (o_mode o) st'
               = filter notTyping (messages (o_mode o) st) ++ [final]).
  { rewrite Hst', messages_setOutstanding. exact Hm. }
  assert (E2 : messages (other (o_mode o)) st' = messages (other (o_mode o)) st).
  { rewrite Hst', messages_setOutstanding. exact Hm'. }
  assert (E3 : typingCount (messages (o_mode o) st) = O ->
               messages (o_mode o) st' = messages (o_mode o) st ++ [final]).
  { intros H0. rewrite E1.
    rewrite (settled_filter (tagged_count_settled Htag H0)). reflexivity. }
  split; [exact E1|]. split; [exact E2|]. split.
  { intros Hneq. destruct (mode_cases (activeMode st) (o_mode o)) as [E | E].
    - contradiction.
    - rewrite E. exact E2. }
  split.
  { rewrite E1, typingCount_app.
    rewrite (settled_count (tagged_filter_settled Htag)).
    reflexivity. }
  split; [exact E3|].
  intros g Hg Hsys Hflag. split.
  - rewrite E3; rewrite Hg; [reflexivity|].
    unfold typingCount; simpl. rewrite Hflag. reflexivity.
  - apply orphans_after_system; [exact Hsys | reflexivity].
Qed.

Lemma settle_routes_to_originating_mode_witness :
  reachable ex_cleared
  /\ nth_error (outstanding ex_cleared) 0
     = Some {| o_mode := customer; o_sessionId := None; o_query := str "hi" |}
  /\ messages customer (settle 0 (okAnswer (str "yo") None) 3 ex_cleared)
     = filter notTyping (messages customer ex_cleared)
       ++ [assistantMessage 3 (str "yo")].
Proof.
  assert (H : reachable ex_cleared).
  { exists 0%Z, [TypeInput (str "hi"); Submit 1; Clear 2]. reflexivity. }
  assert (Hk : nth_error (outstanding ex_cleared) 0
     = Some {| o_mode := customer; o_sessionId := None; o_query := str "hi" |})
    by reflexivity.
  split; [exact H|]. split; [exact Hk|].
  exact (proj1 (@settle_routes_to_originating_mode ex_cleared 0 _
                  (okAnswer (str "yo") None) 3 H Hk)).
Defined.

(** C3 as stated fails: a call sent in customer mode, the chat cleared, the
    call settled: the timeline is the fresh greeting followed by an answer
    that has no user message before it. *)
Lemma cleared_timeline_gets_orphan :
  customerMessages (settle 0 (okAnswer (str "yo") None) 3 ex_cleared)
  = [welcomeMessage customer 2; assistantMessage 3 (str "yo")]
  /\ ~ orphans (customerMessages
                  (settle 0 (okAnswer (str "yo") None) 3 ex_cleared)) = O.
Proof.
  split; [reflexivity|]. vm_compute. discriminate.
Qed.


Lemma complete_idle m st c :
  idle st -> trim (c_text c) <> [] ->
  idle (complete m st c)
  /\ List.length (messages m (complete m st c))
     = (List.length (messages m st) + 2)%nat
  /\ Forall (fun s => (typingCount (messages m s) <= 1)%nat) (callStates m st c).
Proof.
  intros Hidle Htext.
  assert (Hout : outstanding st = []) by apply Hidle.
  unfold callStates, complete. rewrite Hout. simpl List.length.
  destruct (exchange (c_text c) m (c_sent c) (c_outcome c) (c_settled c) Hidle Htext)
    as (H1 & H2 & _ & _ & _ & Hidle2 & _).
  assert (H0 := settled_count (idle_settled m Hidle)).
  split; [exact Hidle2|]. split.
  - rewrite H2, length_app. reflexivity.
  - constructor; [|constructor; [|constructor; [|constructor]]].
    + replace (messages m (appendUserMessage (c_sent c)
                 (setInputValue (c_text c) (setActiveMode m st))))
        with (messages m st ++ [userMessage (c_sent c) (c_text c)])
        by (destruct m; reflexivity).
      rewrite typingCount_app, H0.
      change (typingCount [userMessage (c_sent c) (c_text c)]) with O. lia.
    + rewrite H1, typingCount_app, H0.
      change (typingCount [userMessage (c_sent c) (c_text c);
                           typingMessage (c_sent c)]) with 1%nat. lia.
    + rewrite (settled_count (idle_settled m Hidle2)). lia.
Qed.

(** C4: a sequence of calls to one mode, each sent with a text that is not
    blank and each settled, successfully or not, before the next, makes the
    timeline two entries longer per call; every state on the way shows at
    most one placeholder in it, and the last one none. *)
Theorem timeline_growth_and_single_placeholder m cs st :
  idle st ->
  Forall (fun c => trim (c_text c) <> []) cs ->
  List.length (messages m (runCalls m st cs))
  = (List.length (messages m st) + 2 * List.length cs)%nat
  /\ Forall (fun s => (typingCount (messages m s) <= 1)%nat)
            (st :: callsTrace m st cs)
  /\ typingCount (messages m (runCalls m st cs)) = O.
Proof.
  intros Hidle Hcs. revert st Hidle.
  induction Hcs as [|c cs Hc _ IH]; intros st Hidle.
  - simpl. assert (H0 := settled_count (idle_settled m Hidle)).
    split; [lia|]. split; [|exact H0].
    constructor; [|constructor]. rewrite H0. lia.
  - destruct (@complete_idle m st c Hidle Hc) as (Hidle' & Hlen & Htrace).
    destruct (IH _ Hidle') as (IHlen & IHtrace & IHlast).
    simpl runCalls.
    change (callsTrace m st (c :: cs))
      with (callStates m st c ++ callsTrace m (complete m st c) cs).
    split; [rewrite IHlen, Hlen; simpl List.length; lia|].
    split; [|exact IHlast].
    constructor.
    + rewrite (settled_count (idle_settled m Hidle)). lia.
    + apply Forall_app. split; [exact Htrace|].
      exact (Forall_inv_tail IHtrace).
Qed.

Lemma timeline_growth_and_single_placeholder_witness :
  idle (initial 0)
  /\ Forall (fun c => trim (c_text c) <> [])
       [ {| c_text := str "hi"; c_sent := 1;
            c_outcome := okAnswer (str "yo") None; c_settled := 2 |};
         {| c_text := str "more"; c_sent := 3;
            c_outcome := Rejected; c_settled := 4 |} ]
  /\ List.length (messages customer
       (runCalls customer (initial 0)
          [ {| c_text := str "hi"; c_sent := 1;
               c_outcome := okAnswer (str "yo") None; c_settled := 2 |};
            {| c_text := str "more"; c_sent := 3;
               c_outcome := Rejected; c_settled := 4 |} ])) = 5%nat.
Proof.
  assert (H : idle (initial 0)).
  { repeat split; repeat constructor. }
  assert (Hc : Forall (fun c => trim (c_text c) <> [])
       [ {| c_text := str "hi"; c_sent := 1;
            c_outcome := okAnswer (str "yo") None; c_settled := 2 |};
         {| c_text := str "more"; c_sent := 3;
            c_outcome := Rejected; c_settled := 4 |} ]).
  { repeat constructor; vm_compute; discriminate. }
  split; [exact H|]. split; [exact Hc|].
  exact (proj1 (@timeline_growth_and_single_placeholder customer _ _ H Hc)).
Defined.

(** C5, as the code has it: a successful call replaces the placeholder by
    a final message of type [assistant] whose content is the returned
    answer and which carries no typing flag; the token of the calling
    mode becomes the returned [session_id] exactly when that is a
    non-empty string different from the token, and stays as it was
    otherwise (also for an empty string); the token of the other mode is
    unchanged.  In particular the first customer query, answered with
    [session_id] ["abc"], adds two entries, sets the customer token to
    ["abc"] and leaves the internal token unset. *)
Theorem success_replaces_placeholder_and_stores_token
    text m now now' statusText data st :
  idle st -> trim text <> [] ->
  let st1 := sendMessage text m now st in
  let st2 := settle O (Responded true statusText (Some data)) now' st1 in
  messages m st1 = messages m st ++ [userMessage now text; typingMessage now]
  /\ messages m st2
     = messages m st ++ [userMessage now text; assistantMessage now' (answer data)]
  /\ isTyping (assistantMessage now' (answer data)) = None
  /\ type (assistantMessage now' (answer data)) = assistant
  /\ content (assistantMessage now' (answer data)) = answer data
  /\ content (userMessage now text) = text
  /\ (opt_truthy (session_id data) = true ->
      session_id data <> sessionId m st ->
      sessionId m st2 = session_id data)
  /\ (opt_truthy (session_id data) = false \/ session_id data = sessionId m st ->
      sessionId m st2 = sessionId m st)
  /\ sessionId (other m) st2 = sessionId (other m) st
  /\ (forall t0 t t' ans,
        let s := settle O (okAnswer ans (Some (str "abc"))) t'
                   (sendMessage (str "What are the admission requirements?")
                      customer t (initial t0)) in
        List.length (customerMessages s)
        = (List.length (customerMessages (initial t0)) + 2)%nat
        /\ customerSessionId s = Some (str "abc")
        /\ internalSessionId s = None).
Proof.
  intros Hidle Htext st1 st2.
  destruct (exchange text m now (Responded true statusText (Some data)) now'
              Hidle Htext) as (H1 & H2 & _ & Ht' & Ht & _).
  fold st1 in H1. fold st1 st2 in H2, Ht', Ht. simpl in H2, Ht.
  split; [exact H1|]. split; [exact H2|]. split; [reflexivity|].
  split; [reflexivity|]. split; [reflexivity|]. split; [reflexivity|].
  split.
  { intros Htr Hne. rewrite Ht, Htr.
    apply opt_eqb_neq in Hne. rewrite Hne. reflexivity. }
  split.
  { intros [Hf | He]; rewrite Ht.
    - rewrite Hf. reflexivity.
    - apply opt_eqb_eq in He. rewrite He, andb_false_r. reflexivity. }
  split; [exact Ht'|].
  intros t0 t t' ans s.
  assert (Hq : trim (str "What are the admission requirements?") <> [])
    by (vm_compute; discriminate).
  destruct (exchange _ customer t (okAnswer ans (Some (str "abc"))) t'
              (idle_initial t0) Hq) as (_ & G2 & _ & Gt' & Gt & _).
  fold s in G2, Gt', Gt.
  split; [|split].
  - change (customerMessages s) with (messages customer s).
    rewrite G2, length_app. reflexivity.
  - exact Gt.
  - exact Gt'.
Qed.

Lemma success_replaces_placeholder_and_stores_token_witness :
  idle (initial 0)
  /\ trim (str "hi") <> []
  /\ messages customer
       (settle 0 (Responded true (str "OK")
                    (Some {| answer := str "yo"; session_id := Some (str "abc") |}))
          2 (sendMessage (str "hi") customer 1 (initial 0)))
     = messages customer (initial 0)
       ++ [userMessage 1 (str "hi"); assistantMessage 2 (str "yo")].
Proof.
  assert (H : idle (initial 0)).
  { repeat split; repeat constructor. }
  assert (Ht : trim (str "hi") <> []) by (vm_compute; discriminate).
  split; [exact H|]. split; [exact Ht|].
  exact (proj1 (proj2 (@success_replaces_placeholder_and_stores_token
    (str "hi") customer 1 2 (str "OK")
    {| answer := str "yo"; session_id := Some (str "abc") |} (initial 0) H Ht))).
Defined.

(** C5 as stated fails: with the customer token ["abc"], a response whose
    [session_id] is the empty string, which is present and different, does
    not overwrite the token. *)
Lemma empty_session_id_not_stored :
  ~ (Some (@nil N) <> None ->
     Some (@nil N) <> sessionId customer ex_token ->
     sessionId customer
       (settle 0 (okAnswer (str "ok") (Some [])) 4
          (sendMessage (str "again") customer 3 ex_token))
     = Some []).
Proof.
  intros H.
  assert (H1 : Some (@nil N) <> None) by discriminate.
  assert (H2 : Some (@nil N) <> sessionId customer ex_token)
    by (vm_compute; discriminate).
  specialize (H H1 H2). vm_compute in H. discriminate.
Qed.

Lemma failedCall_throws out : failedCall out = true <-> sendMessageToAPI out = None.
Proof.
  destruct out as [|[|] s [d|]]; simpl; split; congruence.
Qed.

(** C6: when the gateway call fails (transport error, non-2xx response or
    unreadable body) the placeholder is replaced by a final message of type
    [assistant], without typing flag, whose content is the fixed notice
    spelled out below; both tokens stay as they were, and the
    component is idle again: the next message that is not blank is
    accepted in either mode. *)
Theorem failure_replaces_placeholder_and_keeps_token
    text m now now' out st :
  idle st -> trim text <> [] -> failedCall out = true ->
  let st2 := settle O out now' (sendMessage text m now st) in
  messages m st2
  = messages m st ++ [userMessage now text; assistantMessage now' failureNotice]
  /\ isTyping (assistantMessage now' failureNotice) = None
  /\ type (assistantMessage now' failureNotice) = assistant
  /\ content (assistantMessage now' failureNotice)
     = str "Sorry, I encountered an error while processing your request. Please try again or check if the API service is running."
  /\ customerSessionId st2 = customerSessionId st
  /\ internalSessionId st2 = internalSessionId st
  /\ idle st2
  /\ (forall text' m' now'', trim text' <> [] ->
      outstanding (sendMessage text' m' now'' st2) <> []).
Proof.
  intros Hidle Htext Hfail st2.
  apply failedCall_throws in Hfail.
  destruct (exchange text m now out now' Hidle Htext)
    as (_ & H2 & _ & Ht' & Ht & Hidle2 & _).
  fold st2 in H2, Ht', Ht, Hidle2. rewrite Hfail in H2, Ht.
  split; [exact H2|]. split; [reflexivity|].
  split; [reflexivity|]. split; [reflexivity|].
  split; [destruct m; assumption|]. split; [destruct m; assumption|].
  split; [exact Hidle2|].
  intros text' m' now'' Htext'.
  apply (exchange text' m' now'' Rejected 0 Hidle2 Htext').
Qed.

Lemma failure_replaces_placeholder_and_keeps_token_witness :
  idle (initial 0)
  /\ trim (str "hi") <> []
  /\ failedCall (Responded false (str "Internal Server Error") None) = true
  /\ messages internal
       (settle 0 (Responded false (str "Internal Server Error") None) 2
          (sendMessage (str "hi") internal 1 (initial 0)))
     = messages internal (initial 0)
       ++ [userMessage 1 (str "hi"); assistantMessage 2 failureNotice].
Proof.
  assert (H : idle (initial 0)).
  { repeat split; repeat constructor. }
  assert (Ht : trim (str "hi") <> []) by (vm_compute; discriminate).
  assert (Hf : failedCall (Responded false (str "Internal Server Error") None) = true)
    by reflexivity.
  split; [exact H|]. split; [exact Ht|]. split; [exact Hf|].
  exact (proj1 (@failure_replaces_placeholder_and_keeps_token
    (str "hi") internal 1 2 _ (initial 0) H Ht Hf)).
Defined.

(** C9: [clearChat] leaves exactly one message in the timeline of the
    active mode, a fresh [system] message worded for that mode, and changes
    neither the other timeline nor any of the two tokens. *)
Theorem clearChat_single_system_message now st :
  let st' := clearChat now st in
  messages (activeMode st) st' = [welcomeMessage (activeMode st) now]
  /\ List.length (messages (activeMode st) st') = 1%nat
  /\ type (welcomeMessage (activeMode st) now) = system
  /\ content (welcomeMessage customer now)
     = str "Chat cleared. How can I help you with our products and services today?"
  /\ content (welcomeMessage internal now)
     = str "Chat cleared. What internal information would you like to access?"
  /\ messages (other (activeMode st)) st' = messages (other (activeMode st)) st
  /\ customerSessionId st' = customerSessionId st
  /\ internalSessionId st' = internalSessionId st
  /\ activeMode st' = activeMode st.
Proof.
  unfold clearChat.
  destruct (activeMode st) eqn:E; simpl; rewrite ?E; repeat split; reflexivity.
Qed.


(** *** Further properties of the chat *)

(** X1: a message made of white space only (or empty) is never sent, and
    nothing is sent while a call is outstanding; any other input is sent:
    a user message whose content is the input as typed, untrimmed, and the
    empty placeholder with the typing flag are appended, and the input box
    is emptied. *)
Theorem blank_input_never_sent now st :
  (forallb isWhiteSpace (inputValue st) = true ->
   handleSendMessage now st = st)
  /\ (isLoading st = true -> handleSendMessage now st = st)
  /\ (forallb isWhiteSpace (inputValue st) = false -> isLoading st = false ->
      messages (activeMode st) (handleSendMessage now st)
      = messages (activeMode st) st
        ++ [userMessage now (inputValue st); typingMessage now]
      /\ inputValue (handleSendMessage now st) = []
      /\ isLoading (handleSendMessage now st) = true)
  /\ content (userMessage now (inputValue st)) = inputValue st
  /\ type (userMessage now (inputValue st)) = user
  /\ isTyping (userMessage now (inputValue st)) = None
  /\ isTyping (typingMessage now) = Some true
  /\ type (typingMessage now) = assistant
  /\ content (typingMessage now) = [].
Proof.
  split; [|split; [|split; [|repeat split]]].
  - intros H. apply trim_nil in H. unfold handleSendMessage.
    rewrite (proj2 (skips_true st) (or_introl H)). reflexivity.
  - intros H. unfold handleSendMessage.
    rewrite (proj2 (skips_true st) (or_intror H)). reflexivity.
  - intros Hws Hl.
    assert (Hs : skips st = false).
    { apply skips_false. split; [|exact Hl].
      intros E. apply trim_nil in E. congruence. }
    destruct (handleSendMessage_accepted now st Hs)
      as (_ & Hl' & Hi & _ & Hm & _).
    auto.
Qed.

(** X2: the request of an accepted call carries the text as typed, the
    name of the active mode and the token of that mode, left out when there
    is none or it is empty.  A non-empty [session_id] returned by a
    successful call is sent with the next request of the same mode; a
    request of the other mode carries that mode's own token. *)
Theorem token_round_trip text m now statusText data now' text2 m2 now2 st :
  idle st -> trim text <> [] -> trim text2 <> [] ->
  opt_truthy (session_id data) = true ->
  let st1 := sendMessage text m now st in
  let st2 := settle O (Responded true statusText (Some data)) now' st1 in
  let st3 := sendMessage text2 m2 now2 st2 in
  (exists o, outstanding st1 = [o]
     /\ requestOf o
        = {| rb_query := text; rb_namespace := mode_name m;
             rb_session_id := if opt_truthy (sessionId m st)
                              then sessionId m st else None |})
  /\ (exists o, outstanding st3 = [o]
     /\ rb_query (requestOf o) = text2
     /\ rb_namespace (requestOf o) = mode_name m2
     /\ rb_session_id (requestOf o)
        = if mode_eqb m2 m then session_id data
          else if opt_truthy (sessionId m2 st) then sessionId m2 st else None).
Proof.
  intros Hidle Ht Ht2 Hsid st1 st2 st3.
  assert (Hsent : forall t mo n s, idle s -> trim t <> [] ->
    outstanding (sendMessage t mo n s)
    = [ {| o_mode := mo; o_sessionId := sessionId mo s; o_query := t |} ]).
  { intros t mo n s Hi Htt.
    assert (Hs : skips (setInputValue t (setActiveMode mo s)) = false).
    { apply skips_false. split; [exact Htt | apply Hi]. }
    destruct (handleSendMessage_accepted n _ Hs) as (Ho & _).
    unfold sendMessage. rewrite Ho.
    destruct Hi as (Hout & _). simpl. rewrite Hout.
    destruct mo; reflexivity. }
  destruct (exchange text m now (Responded true statusText (Some data)) now'
              Hidle Ht) as (_ & _ & _ & Ht' & Htok & Hidle2 & _).
  fold st1 st2 in Ht', Htok, Hidle2. simpl in Htok. rewrite Hsid in Htok.
  assert (Hm : sessionId m st2 = session_id data).
  { rewrite Htok. simpl.
    destruct (opt_eqb (session_id data) (sessionId m st)) eqn:E; simpl;
      [|reflexivity].
    apply opt_eqb_eq in E. symmetry. exact E. }
  split.
  - eexists. split; [apply Hsent; assumption|]. reflexivity.
  - eexists. split; [apply Hsent; assumption|].
    split; [reflexivity|]. split; [reflexivity|].
    unfold requestOf, requestBody; simpl.
    destruct (mode_cases m2 m) as [-> | ->].
    + replace (mode_eqb m m) with true by (destruct m; reflexivity).
      rewrite Hm, Hsid. reflexivity.
    + replace (mode_eqb (other m) m) with false by (destruct m; reflexivity).
      rewrite Ht'. reflexivity.
Qed.

Lemma token_round_trip_witness :
  idle (initial 0) /\ trim (str "hi") <> [] /\ trim (str "more") <> []
  /\ opt_truthy (Some (str "abc")) = true
  /\ exists o,
       outstanding
         (sendMessage (str "more") customer 3
            (settle 0 (okAnswer (str "yo") (Some (str "abc"))) 2
               (sendMessage (str "hi") customer 1 (initial 0)))) = [o]
       /\ rb_query (requestOf o) = str "more"
       /\ rb_namespace (requestOf o) = mode_name customer
       /\ rb_session_id (requestOf o) = Some (str "abc").
Proof.
  assert (H : idle (initial 0)) by (repeat split; repeat constructor).
  assert (H1 : trim (str "hi") <> []) by (vm_compute; discriminate).
  assert (H2 : trim (str "more") <> []) by (vm_compute; discriminate).
  assert (H3 : opt_truthy (Some (str "abc")) = true) by reflexivity.
  split; [exact H|]. split; [exact H1|]. split; [exact H2|]. split; [exact H3|].
  exact (proj2 (@token_round_trip (str "hi") customer 1 (str "OK")
    {| answer := str "yo"; session_id := Some (str "abc") |} 2
    (str "more") customer 3 (initial 0) H H1 H2 H3)).
Defined.

(** X3: an event changes the timeline and the token of at most one mode,
    the one it [touches]; typing, switching mode, sending and clearing
    never change a token. *)
Theorem modes_do_not_interfere st e m :
  touches st e <> Some m ->
  messages m (step st e) = messages m st
  /\ sessionId m (step st e) = sessionId m st
  /\ (forall m', (forall k out now, e <> Settle k out now) ->
      sessionId m' (step st e) = sessionId m' st).
Proof.
  intros Hm.
  assert (Hother : forall a, Some a <> Some m -> m = other a).
  { intros a H. destruct (mode_cases m a) as [-> | ->]; [congruence | reflexivity]. }
  destruct e as [v | m0 | now | k out now | now]; simpl in *.
  - repeat split; destruct m; try destruct m'; reflexivity.
  - repeat split; destruct m; try destruct m'; reflexivity.
  - split; [|split].
    + unfold handleSendMessage. destruct (skips st) eqn:Hs; [reflexivity|].
      destruct (handleSendMessage_accepted now st Hs) as (_ & _ & _ & _ & _ & H & _).
      unfold handleSendMessage in H. rewrite Hs in H.
      rewrite (Hother _ Hm). exact H.
    + unfold handleSendMessage. destruct (skips st) eqn:Hs; [reflexivity|].
      destruct (handleSendMessage_accepted now st Hs) as (_ & _ & _ & _ & _ & _ & Hc & Hi).
      unfold handleSendMessage in Hc, Hi. rewrite Hs in Hc, Hi.
      destruct m; assumption.
    + intros m' _. unfold handleSendMessage.
      destruct (skips st) eqn:Hs; [reflexivity|].
      destruct (handleSendMessage_accepted now st Hs) as (_ & _ & _ & _ & _ & _ & Hc & Hi).
      unfold handleSendMessage in Hc, Hi. rewrite Hs in Hc, Hi.
      destruct m'; assumption.
  - unfold settle.
    destruct (nth_error (outstanding st) k) as [o|] eqn:Hk.
    + rewrite (Hother _ Hm).
      destruct (resume_effect o out now st) as (_ & Hr & _).
      destruct (resume_tokens o out now st) as (Ht & _).
      rewrite messages_setOutstanding, sessionId_setOutstanding.
      split; [exact Hr|]. split; [exact Ht|].
      intros m' Hne. exfalso. exact (Hne k out now eq_refl).
    + repeat split.
  - rewrite (Hother _ Hm). unfold clearChat.
    rewrite messages_setMessages_other, sessionId_setMessages.
    split; [reflexivity|]. split; [reflexivity|].
    intros m' _. apply sessionId_setMessages.
Qed.

Lemma modes_do_not_interfere_witness :
  touches ex_switched (Settle 0 (okAnswer (str "yo") (Some (str "abc"))) 5)
  <> Some internal
  /\ messages internal
       (step ex_switched (Settle 0 (okAnswer (str "yo") (Some (str "abc"))) 5))
     = messages internal ex_switched
  /\ sessionId internal
       (step ex_switched (Settle 0 (okAnswer (str "yo") (Some (str "abc"))) 5))
     = None.
Proof.
  assert (H : touches ex_switched
                (Settle 0 (okAnswer (str "yo") (Some (str "abc"))) 5)
              <> Some internal) by (vm_compute; discriminate).
  split; [exact H|].
  destruct (@modes_do_not_interfere ex_switched _ internal H) as (H1 & H2 & _).
  split; [exact H1 | exact H2].
Defined.


Lemma greeted_app l l' :
  greeted l -> forallb (fun m => negb (isSystem m)) l' = true ->
  greeted (l ++ l').
Proof.
  destruct l as [|g rest]; simpl; [tauto|].
  intros (Hg & Hn & Hrest) Hl'. rewrite forallb_app, Hrest, Hl'. auto.
Qed.

Lemma greeted_filter l : greeted l -> greeted (filter notTyping l).
Proof.
  destruct l as [|g rest]; simpl; [tauto|].
  intros (Hg & Hn & Hrest). rewrite Hn. simpl.
  split; [exact Hg|]. split; [exact Hn|].
  apply forallb_forall. intros m Hm. apply filter_In in Hm.
  rewrite forallb_forall in Hrest. apply Hrest, Hm.
Qed.

Lemma greeted_welcomeMessage m now : greeted [welcomeMessage m now].
Proof.
  simpl. split; [reflexivity|]. split; [|reflexivity].
  unfold notTyping; simpl. rewrite toString_not_typing. reflexivity.
Qed.

Lemma greeted_step st e :
  (forall m, greeted (messages m st)) ->
  forall m, greeted (messages m (step st e)).
Proof.
  intros H m.
  destruct e as [v | m0 | now | k out now | now]; simpl.
  - destruct m; [exact (H customer) | exact (H internal)].
  - destruct m; [exact (H customer) | exact (H internal)].
  - unfold handleSendMessage. destruct (skips st) eqn:Hs; [apply H|].
    destruct (handleSendMessage_accepted now st Hs)
      as (_ & _ & _ & _ & Ha & Ho & _).
    unfold handleSendMessage in Ha, Ho. rewrite Hs in Ha, Ho.
    destruct (mode_cases m (activeMode st)) as [-> | ->].
    + rewrite Ha. apply greeted_app; [apply H | reflexivity].
    + rewrite Ho. apply H.
  - unfold settle. destruct (nth_error (outstanding st) k) as [o|]; [|apply H].
    rewrite messages_setOutstanding.
    destruct (resume_effect o out now st) as (Ha & Ho & _).
    destruct (mode_cases m (o_mode o)) as [-> | ->].
    + rewrite Ha. apply greeted_app; [apply greeted_filter, H | reflexivity].
    + rewrite Ho. apply H.
  - unfold clearChat.
    destruct (mode_cases m (activeMode st)) as [-> | ->].
    + rewrite messages_setMessages. apply greeted_welcomeMessage.
    + rewrite messages_setMessages_other. apply H.
Qed.

(** X4: in every reachable state each timeline is non-empty and opens with
    a system message, its only one; so the Clear button is disabled exactly
    when the visible timeline is that one message. *)
Theorem greeting_stays_on_top st :
  reachable st ->
  (forall m, exists g rest,
      messages m st = g :: rest
      /\ type g = system
      /\ Forall (fun x => type x <> system) rest)
  /\ (clearDisabled st = true
      <-> exists g, messages (activeMode st) st = [g]).
Proof.
  intros (t0 & evs & ->).
  assert (H : forall m, greeted (messages m (run (initial t0) evs))).
  { unfold run. generalize (initial t0) (fun m => match m return
      greeted (messages m (initial t0)) with
      | customer => conj eq_refl (conj eq_refl eq_refl)
      | internal => conj eq_refl (conj eq_refl eq_refl) end).
    induction evs as [|e evs IH]; intros s Hs; [exact Hs|].
    simpl. apply IH. apply greeted_step, Hs. }
  split.
  - intros m. specialize (H m).
    destruct (messages m (run (initial t0) evs)) as [|g rest]; [contradiction|].
    destruct H as (Hg & _ & Hrest).
    exists g, rest. split; [reflexivity|]. split.
    + unfold isSystem in Hg. destruct (type g); congruence.
    + apply Forall_forall. intros x Hx. rewrite forallb_forall in Hrest.
      specialize (Hrest x Hx). unfold isSystem in Hrest.
      destruct (type x); [discriminate | discriminate | discriminate Hrest].
  - unfold clearDisabled. specialize (H (activeMode (run (initial t0) evs))).
    destruct (messages _ _) as [|g [|g' rest]]; [contradiction | |].
    + split; [intros _; exists g; reflexivity | reflexivity].
    + split; [discriminate | intros (g0 & E); discriminate].
Qed.

Lemma greeting_stays_on_top_witness :
  reachable ex_cleared
  /\ exists g rest,
       messages customer ex_cleared = g :: rest
       /\ type g = system
       /\ Forall (fun x => type x <> system) rest.
Proof.
  assert (H : reachable ex_cleared).
  { exists 0%Z, [TypeInput (str "hi"); Submit 1; Clear 2]. reflexivity. }
  split; [exact H|].
  exact (proj1 (@greeting_stays_on_top ex_cleared H) customer).
Defined.

Lemma filter_idempotent {A : Type} (p : A -> bool) (l : list A) :
  filter p (filter p l) = filter p l.
Proof.
  induction l as [|a l IH]; simpl; [reflexivity|].
  destruct (p a) eqn:E; simpl; rewrite ?E, IH; reflexivity.
Qed.

(** X5: no event but [clearChat] edits, drops or reorders a message that
    is not the placeholder: the finalized part of every timeline only
    grows at its end, by at most one message per event. *)
Theorem finalized_append_only st e m :
  isClear e = false ->
  exists suffix,
    finalized m (step st e) = finalized m st ++ suffix
    /\ (List.length suffix <= 1)%nat.
Proof.
  intros Hc. unfold finalized.
  assert (Hsame : forall s, messages m s = messages m st ->
    exists suffix, filter notTyping (messages m s)
                   = filter notTyping (messages m st) ++ suffix
                   /\ (List.length suffix <= 1)%nat).
  { intros s E. exists []. rewrite E, app_nil_r. split; [reflexivity | simpl; lia]. }
  destruct e as [v | m0 | now | k out now | now]; simpl in *;
    try discriminate.
  - apply Hsame. destruct m; reflexivity.
  - apply Hsame. destruct m; reflexivity.
  - unfold handleSendMessage. destruct (skips st) eqn:Hs;
      [apply Hsame; reflexivity|].
    destruct (handleSendMessage_accepted now st Hs)
      as (_ & _ & _ & _ & Ha & Ho & _).
    unfold handleSendMessage in Ha, Ho. rewrite Hs in Ha, Ho.
    destruct (mode_cases m (activeMode st)) as [-> | ->].
    + exists [userMessage now (inputValue st)].
      rewrite Ha, filter_app. simpl. unfold notTyping at 2; simpl.
      rewrite toString_not_typing. simpl. split; [reflexivity | lia].
    + apply Hsame. exact Ho.
  - unfold settle. destruct (nth_error (outstanding st) k) as [o|];
      [|apply Hsame; reflexivity].
    destruct (resume_effect o out now st) as (Ha & Ho & _).
    destruct (mode_cases m (o_mode o)) as [-> | ->].
    + eexists. rewrite messages_setOutstanding, Ha, filter_app,
        filter_idempotent.
      split; [reflexivity|].
      simpl. destruct (notTyping _); simpl; lia.
    + apply Hsame. rewrite messages_setOutstanding. exact Ho.
Qed.

Lemma finalized_append_only_witness :
  isClear (Settle 0 (okAnswer (str "yo") None) 3) = false
  /\ exists suffix,
       finalized customer
         (step ex_switched (Settle 0 (okAnswer (str "yo") None) 3))
       = finalized customer ex_switched ++ suffix
       /\ (List.length suffix <= 1)%nat.
Proof.
  assert (H : isClear (Settle 0 (okAnswer (str "yo") None) 3) = false)
    by reflexivity.
  split; [exact H|].
  exact (@finalized_append_only ex_switched _ customer H).
Defined.

End ChatFacts.

(** ** DocumentUpload *)

Module UploadFacts.

Import JSFacts Upload.

Unset Implicit Arguments.

(** *** Lists *)

Lemma setNth_map {A B : Type} (g : A -> B) i x (l : list A) d :
  nth_error l i = Some d -> g x = g d -> map g (setNth i x l) = map g l.
Proof.
  revert i; induction l as [|y l IH]; intros [|i] H E; simpl in *;
    try discriminate.
  - inversion H; subst. rewrite E. reflexivity.
  - rewrite (IH i H E). reflexivity.
Qed.

Lemma setNth_In {A : Type} i (x : A) l d :
  nth_error l i = Some d -> In x (setNth i x l).
Proof.
  revert i; induction l as [|y l IH]; intros [|i] H; simpl in *;
    try discriminate; eauto.
Qed.

Lemma setNth_other {A : Type} i (x : A) l d a :
  nth_error l i = Some d -> In a l -> a <> d -> In a (setNth i x l).
Proof.
  revert i; induction l as [|y l IH]; intros [|i] H Ha Hne; simpl in *;
    try discriminate.
  - inversion H; subst. destruct Ha as [Ha | Ha]; [congruence | auto].
  - destruct Ha as [Ha | Ha]; [auto | right; eapply IH; eauto].
Qed.

Lemma NoDup_map_inj {A B : Type} (g : A -> B) (l : list A) a b :
  NoDup (map g l) -> In a l -> In b l -> g a = g b -> a = b.
Proof.
  induction l as [|y l IH]; simpl; intros Hnd Ha Hb E; [contradiction|].
  inversion Hnd as [|? ? Hnot Hnd']; subst.
  destruct Ha as [-> | Ha], Hb as [-> | Hb]; auto.
  - exfalso. apply Hnot. rewrite E. apply in_map, Hb.
  - exfalso. apply Hnot. rewrite <- E. apply in_map, Ha.
Qed.

(** *** Looking a record up *)

Lemma lookup_id x fs f : lookup x fs = Some f -> id f = x.
Proof.
  unfold lookup. intros H. apply find_some in H. apply eqb_eq, H.
Qed.

Lemma lookup_In x fs f : lookup x fs = Some f -> In f fs.
Proof. unfold lookup. intros H. apply find_some in H. apply H. Qed.

Lemma lookup_None x fs : lookup x fs = None <-> ~ In x (map id fs).
Proof.
  unfold lookup. induction fs as [|f fs IH]; simpl; [tauto|].
  destruct (eqb (id f) x) eqn:E.
  - apply eqb_eq in E. split; [discriminate | intros H; exfalso; auto].
  - apply eqb_neq in E. rewrite IH. tauto.
Qed.

Lemma lookup_app x fs gs :
  lookup x (fs ++ gs)
  = match lookup x fs with Some f => Some f | None => lookup x gs end.
Proof.
  unfold lookup. induction fs as [|f fs IH]; simpl; [reflexivity|].
  destruct (eqb (id f) x); [reflexivity | exact IH].
Qed.

(** A pass that rewrites the records of [x] only, keeping their
    identifier. *)
Lemma lookup_map x y g fs :
  (forall f, id (g f) = id f) ->
  lookup y (map (fun f => if eqb (id f) x then g f else f) fs)
  = if eqb y x then option_map g (lookup y fs) else lookup y fs.
Proof.
  intros Hg. unfold lookup. induction fs as [|f fs IH]; simpl.
  - destruct (eqb y x); reflexivity.
  - destruct (eqb (id f) x) eqn:Ef.
    + rewrite Hg. apply eqb_eq in Ef.
      destruct (eqb (id f) y) eqn:Ey.
      * apply eqb_eq in Ey. assert (E : y = x) by congruence.
        apply eqb_eq in E. rewrite E. reflexivity.
      * exact IH.
    + destruct (eqb (id f) y) eqn:Ey; [|exact IH].
      apply eqb_eq in Ey. rewrite <- Ey, Ef. reflexivity.
Qed.

Lemma map_id_pass x g fs :
  (forall f, id (g f) = id f) ->
  map id (map (fun f => if eqb (id f) x then g f else f) fs) = map id fs.
Proof.
  intros Hg. rewrite map_map. apply map_ext. intros f.
  destruct (eqb (id f) x); [apply Hg | reflexivity].
Qed.

Lemma lookup_filter x y fs :
  lookup y (filter (fun f => negb (eqb (id f) x)) fs)
  = if eqb y x then None else lookup y fs.
Proof.
  unfold lookup. induction fs as [|f fs IH]; simpl.
  - destruct (eqb y x); reflexivity.
  - destruct (eqb (id f) x) eqn:Ef; simpl.
    + rewrite IH. apply eqb_eq in Ef.
      destruct (eqb y x) eqn:Ey; [reflexivity|].
      destruct (eqb (id f) y) eqn:E; [|reflexivity].
      apply eqb_eq in E. apply eqb_neq in Ey. congruence.
    + destruct (eqb (id f) y) eqn:E; [|exact IH].
      apply eqb_eq in E. rewrite <- E, Ef. reflexivity.
Qed.

Lemma NoDup_map_filter {A B : Type} (g : A -> B) p (l : list A) :
  NoDup (map g l) -> NoDup (map g (filter p l)).
Proof.
  induction l as [|a l IH]; simpl; intros H; [constructor|].
  inversion H as [|? ? Hnot Hnd]; subst.
  destruct (p a); simpl; [|auto].
  constructor; [|auto].
  intros Hin. apply Hnot. apply in_map_iff in Hin.
  destruct Hin as (b & E & Hb). apply filter_In in Hb.
  rewrite <- E. apply in_map, Hb.
Qed.

(** *** The processing pass *)

Lemma processingPass_absent x rnd fs :
  ~ In x (map id fs) -> forall k, processingPass x rnd k fs = (fs, false).
Proof.
  induction fs as [|f fs IH]; simpl; intros Hx k; [reflexivity|].
  destruct (eqb (id f) x) eqn:E.
  - apply eqb_eq in E. exfalso. auto.
  - simpl. rewrite IH by tauto. reflexivity.
Qed.

Lemma processingPass_ids x rnd fs :
  forall k, map id (fst (processingPass x rnd k fs)) = map id fs.
Proof.
  induction fs as [|f fs IH]; simpl; intros k; [reflexivity|].
  destruct (eqb (id f) x && status_eqb (status f) processing).
  - destruct (Qle_bool 100 (progress f + rnd k * 15)); simpl;
      rewrite IH; reflexivity.
  - simpl. rewrite IH. reflexivity.
Qed.

Lemma processingPass_other x y rnd fs :
  y <> x -> forall k,
  lookup y (fst (processingPass x rnd k fs)) = lookup y fs.
Proof.
  intros Hne. unfold lookup.
  induction fs as [|f fs IH]; simpl; intros k; [reflexivity|].
  destruct (eqb (id f) x && status_eqb (status f) processing) eqn:E.
  - apply andb_true_iff in E. destruct E as [E _]. apply eqb_eq in E.
    assert (Ey : eqb (id f) y = false) by (apply eqb_neq; congruence).
    destruct (Qle_bool 100 (progress f + rnd k * 15)); simpl;
      rewrite Ey; apply IH.
  - simpl. destruct (eqb (id f) y); [reflexivity | apply IH].
Qed.

(** With one record per identifier the pass draws once and rewrites the
    record of [x], if it is processing. *)
Lemma processingPass_unique x rnd fs :
  NoDup (map id fs) -> forall k f,
  lookup x fs = Some f ->
  let r := processingPass x rnd k fs in
  let p := progress f + rnd k * 15 in
  if status_eqb (status f) processing
  then if Qle_bool 100 p
       then lookup x (fst r) = Some (withStatusProgress ready 100 f)
            /\ snd r = true
       else lookup x (fst r) = Some (withProgress p f) /\ snd r = false
  else lookup x (fst r) = Some f /\ snd r = false.
Proof.
  unfold lookup.
  induction fs as [|g fs IH]; simpl; intros Hnd k f Hf; [discriminate|].
  inversion Hnd as [|? ? Hnot Hnd']; subst.
  destruct (eqb (id g) x) eqn:E.
  - inversion Hf; subst g. apply eqb_eq in E. rewrite <- E in *.
    rewrite !(processingPass_absent _ rnd fs Hnot).
    destruct (status_eqb (status f) processing); simpl.
    + destruct (Qle_bool 100 (progress f + rnd k * 15)); simpl;
        rewrite eqb_refl; auto.
    + rewrite eqb_refl. auto.
  - simpl. rewrite E. apply (IH Hnd' k f Hf).
Qed.


(** *** One firing of a timer *)

Lemma Qle_bool_false x y : Qle_bool x y = false -> y < x.
Proof.
  intros H. apply Qnot_le_lt. intros Hle.
  apply Qle_bool_iff in Hle. congruence.
Qed.

Lemma status_eqb_eq a b : status_eqb a b = true <-> a = b.
Proof. destruct a, b; simpl; split; congruence. Qed.

Lemma advances_refl f : advances f f.
Proof. left. split; [reflexivity | apply Qle_refl]. Qed.

Lemma fire_spec d rnd fs :
  (forall k, 0 <= rnd k /\ rnd k < 1) ->
  NoDup (map id fs) ->
  let r := fire d rnd fs in
  driverId (snd r) = driverId d
  /\ map id (fst r) = map id fs
  /\ (forall y, y <> driverId d -> lookup y (fst r) = lookup y fs)
  /\ (forall f, lookup (driverId d) fs = Some f -> agrees d f ->
      exists f', lookup (driverId d) (fst r) = Some f'
                 /\ agrees (snd r) f' /\ advances f f').
Proof.
  intros Hrnd Hnd.
  destruct d as [x p | x | x | x]; simpl.
  - (* the upload interval *)
    destruct (Hrnd O) as [Hr0 _].
    destruct (Qle_bool 100 (p + rnd O * 20)) eqn:Hfull; simpl.
    + split; [reflexivity|]. split; [apply map_id_pass; reflexivity|].
      split.
      * intros y Hy. rewrite lookup_map by reflexivity.
        apply eqb_neq in Hy. rewrite Hy. reflexivity.
      * intros f Hf (Hst & _). rewrite lookup_map by reflexivity.
        rewrite eqb_refl, Hf. simpl. eexists. split; [reflexivity|].
        split; [split; reflexivity|].
        right; left. repeat split; exact Hst.
    + apply Qle_bool_false in Hfull.
      split; [reflexivity|]. split; [apply map_id_pass; reflexivity|].
      split.
      * intros y Hy. rewrite lookup_map by reflexivity.
        apply eqb_neq in Hy. rewrite Hy. reflexivity.
      * intros f Hf (Hst & Hp & Hp0 & _). rewrite lookup_map by reflexivity.
        rewrite eqb_refl, Hf. simpl. eexists. split; [reflexivity|].
        split.
        -- simpl. repeat split; first [exact Hst | exact Hfull | lra].
        -- left. simpl. split; [reflexivity|]. rewrite Hp. lra.
  - (* the hand-off delay *)
    split; [reflexivity|]. split; [reflexivity|]. split; [reflexivity|].
    intros f Hf (Hst & Hp). exists f. split; [exact Hf|].
    split; [|apply advances_refl].
    rewrite Hp. repeat split; first [exact Hst | lra].
  - (* the processing interval *)
    destruct (Hrnd O) as [Hr0 _].
    split; [destruct (snd (processingPass x rnd 0 fs)); reflexivity|].
    split; [apply processingPass_ids|].
    split; [intros y Hy; apply processingPass_other; exact Hy|].
    intros f Hf (Hst & Hp0 & _).
    assert (H := processingPass_unique x rnd fs Hnd O f Hf). simpl in H.
    apply status_eqb_eq in Hst. rewrite Hst in H. apply status_eqb_eq in Hst.
    destruct (Qle_bool 100 (progress f + rnd O * 15)) eqn:Hfull;
      destruct H as [Hl Hs]; rewrite Hl, Hs; eexists;
      (split; [reflexivity|]).
    + split; [split; reflexivity|].
      right; right. repeat split; exact Hst.
    + apply Qle_bool_false in Hfull. split.
      * simpl. repeat split; first [exact Hst | exact Hfull | lra].
      * left. simpl. split; [reflexivity | lra].
  - (* no timer left *)
    split; [reflexivity|]. split; [reflexivity|]. split; [reflexivity|].
    intros f Hf Hag. exists f. split; [exact Hf|].
    split; [exact Hag | apply advances_refl].
Qed.

(** A driver whose record is gone changes nothing in the registry. *)
Lemma fire_absent d rnd fs :
  ~ In (driverId d) (map id fs) -> fst (fire d rnd fs) = fs.
Proof.
  intros Habs.
  assert (Hmap : forall g,
    map (fun f => if eqb (id f) (driverId d) then g f else f) fs = fs).
  { intros g. rewrite <- (map_id fs) at 2. apply map_ext_in.
    intros f Hf. destruct (eqb (id f) (driverId d)) eqn:E; [|reflexivity].
    apply eqb_eq in E. exfalso. apply Habs. rewrite <- E. apply in_map, Hf. }
  destruct d as [x p | x | x | x]; simpl in *.
  - destruct (Qle_bool 100 (p + rnd O * 20)); simpl; apply Hmap.
  - reflexivity.
  - rewrite (processingPass_absent x rnd fs Habs). reflexivity.
  - reflexivity.
Qed.

(** A driver never touches a record of another identifier. *)
Lemma fire_others d rnd fs f :
  id f <> driverId d -> (In f (fst (fire d rnd fs)) <-> In f fs).
Proof.
  intros Hne.
  assert (Hmap : forall g, (forall a, id (g a) = id a) ->
    (In f (map (fun a => if eqb (id a) (driverId d) then g a else a) fs)
     <-> In f fs)).
  { intros g Hg. rewrite in_map_iff. split.
    - intros (a & E & Ha). destruct (eqb (id a) (driverId d)) eqn:Ea.
      + apply eqb_eq in Ea. exfalso. apply Hne.
        rewrite <- E, Hg. exact Ea.
      + subst a. exact Ha.
    - intros Hf. exists f. split; [|exact Hf].
      apply eqb_neq in Hne. rewrite Hne. reflexivity. }
  destruct d as [x p | x | x | x]; simpl in *; try tauto.
  - destruct (Qle_bool 100 (p + rnd O * 20)); simpl; apply Hmap; reflexivity.
  - clear Hmap. generalize O.
    induction fs as [|a fs IH]; simpl; intros k; [tauto|].
    destruct (eqb (id a) x && status_eqb (status a) processing) eqn:E.
    + apply andb_true_iff in E. destruct E as [E _]. apply eqb_eq in E.
      destruct (Qle_bool 100 (progress a + rnd k * 15)); simpl;
        rewrite IH; split; intros [Hf | Hf]; auto;
        exfalso; apply Hne; rewrite <- Hf; exact E.
    + simpl. rewrite IH. tauto.
Qed.


(** *** Every event keeps the invariant *)

Lemma lookup_Some_used x st f :
  lookup x (files st) = Some f -> In x (usedIds st).
Proof.
  intros H. unfold usedIds. apply in_or_app. left.
  rewrite <- (lookup_id _ _ _ H). apply in_map, (lookup_In _ _ _ H).
Qed.

Lemma follows_same st : wf st -> follows st st.
Proof.
  intros Hwf. split; [exact Hwf|]. split; [|split].
  - intros x a Ha. left. exists a. split; [exact Ha | apply advances_refl].
  - auto.
  - intros x Hx. destruct (lookup x (files st)) as [b|] eqn:E; [|exact Hx].
    exfalso. apply Hx. eapply lookup_Some_used; eassumption.
Qed.

Lemma ids_newFiles now l : map id (map (newFile now) l) = map s_id l.
Proof. rewrite map_map. reflexivity. Qed.

Lemma driverIds_newFiles now l :
  map driverId (map (fun f => simulateFileProcessing (id f))
                    (map (newFile now) l)) = map s_id l.
Proof. rewrite !map_map. reflexivity. Qed.

Lemma lookup_newFiles x now l f :
  lookup x (map (newFile now) l) = Some f ->
  status f = uploading /\ progress f = 0
  /\ In (Uploading x 0)
        (map (fun f => simulateFileProcessing (id f)) (map (newFile now) l)).
Proof.
  intros H. assert (Hid := lookup_id _ _ _ H).
  apply lookup_In in H. apply in_map_iff in H. destruct H as (s & <- & Hs).
  split; [reflexivity|]. split; [reflexivity|].
  rewrite map_map. apply in_map_iff. exists s. split; [|exact Hs].
  simpl in *. unfold simulateFileProcessing. rewrite Hid. reflexivity.
Qed.

Lemma follows_handleFileUpload l now st :
  wf st -> validEvent st (AddFiles l now) ->
  follows st (handleFileUpload l now st).
Proof.
  intros Hwf Hvalid. destruct l as [l|]; [|apply follows_same, Hwf].
  destruct Hwf as (Hf & Hd & Hag). destruct Hvalid as [Hnd Hfresh].
  unfold follows, wf, handleFileUpload, retired; simpl.
  assert (Hused : forall x, In x (map s_id l) ->
                  ~ In x (map id (files st)) /\ ~ In x (map driverId (drivers st))).
  { intros x Hx. specialize (Hfresh x Hx). unfold usedIds in Hfresh.
    rewrite in_app_iff in Hfresh. tauto. }
  split; [split; [|split]|split; [|split]].
  - rewrite map_app, ids_newFiles. apply NoDup_app; auto.
    intros a Ha Hl. destruct (Hused a Hl); contradiction.
  - rewrite map_app, driverIds_newFiles. apply NoDup_app; auto.
    intros a Ha Hl. destruct (Hused a Hl); contradiction.
  - intros x f. rewrite lookup_app.
    destruct (lookup x (files st)) as [f0|] eqn:E.
    + intros H; inversion H; subst f0.
      destruct (Hag x f E) as (d & Hin & Hid & Hagr).
      exists d. split; [apply in_or_app; left; exact Hin | auto].
    + intros H. destruct (lookup_newFiles _ _ _ _ H) as (Hs & Hp & Hin).
      exists (Uploading x 0). split; [apply in_or_app; right; exact Hin|].
      split; [reflexivity|]. simpl.
      split; [exact Hs|]. split; [exact Hp|]. split; lra.
  - intros x a Ha. left. exists a. rewrite lookup_app, Ha.
    split; [reflexivity | apply advances_refl].
  - intros x [Hnone Hin]. split.
    + rewrite lookup_app, Hnone.
      apply lookup_None. rewrite ids_newFiles. intros Hl.
      destruct (Hused x Hl); contradiction.
    + rewrite map_app. apply in_or_app. left. exact Hin.
  - intros x Hx. rewrite lookup_app.
    assert (Hnone : lookup x (files st) = None).
    { apply lookup_None. intros H. apply Hx. apply in_or_app. left. exact H. }
    rewrite Hnone.
    destruct (lookup x (map (newFile now) l)) as [b|] eqn:E.
    + destruct (lookup_newFiles _ _ _ _ E) as (Hs & Hp & _). auto.
    + apply lookup_None in E. rewrite ids_newFiles in E.
      unfold usedIds; simpl.
      rewrite !map_app, ids_newFiles, driverIds_newFiles, !in_app_iff.
      unfold usedIds in Hx. rewrite in_app_iff in Hx. tauto.
Qed.

Lemma follows_removeFile y st : wf st -> follows st (removeFile y st).
Proof.
  intros (Hf & Hd & Hag).
  unfold follows, wf, removeFile, retired; simpl.
  split; [split; [|split]|split; [|split]].
  - apply NoDup_map_filter, Hf.
  - exact Hd.
  - intros x f. rewrite lookup_filter.
    destruct (eqb x y); [discriminate | apply Hag].
  - intros x a Ha. rewrite lookup_filter.
    destruct (eqb x y).
    + right. split; [reflexivity|].
      destruct (Hag x a Ha) as (d & Hin & Hid & _).
      rewrite <- Hid. apply in_map, Hin.
    + left. exists a. split; [exact Ha | apply advances_refl].
  - intros x [Hnone Hin]. split; [|exact Hin].
    rewrite lookup_filter, Hnone. destruct (eqb x y); reflexivity.
  - intros x Hx. rewrite lookup_filter.
    assert (Hnone : lookup x (files st) = None).
    { apply lookup_None. intros H. apply Hx. apply in_or_app. left. exact H. }
    rewrite Hnone.
    assert (Hgoal : ~ In x (usedIds (removeFile y st))).
    { unfold usedIds in *; simpl. rewrite in_app_iff in *.
      intros [H | H]; [|tauto].
      apply in_map_iff in H. destruct H as (f & E & Hin).
      apply filter_In in Hin. apply Hx. left. rewrite <- E. apply in_map, Hin. }
    destruct (eqb x y); exact Hgoal.
Qed.

Lemma follows_tick i rnd st :
  wf st -> validEvent st (Tick i rnd) -> follows st (tick i rnd st).
Proof.
  intros Hwf Hrnd. simpl in Hrnd. unfold tick.
  destruct (nth_error (drivers st) i) as [d|] eqn:Hi;
    [|apply follows_same, Hwf].
  destruct Hwf as (Hf & Hd & Hag).
  destruct (fire_spec d rnd (files st) Hrnd Hf) as (Hid & Hids & Hoth & Hown).
  assert (Hdin : In d (drivers st)) by (eapply nth_error_In; eassumption).
  assert (Hdrv : map driverId (setNth i (snd (fire d rnd (files st))) (drivers st))
                 = map driverId (drivers st)).
  { eapply setNth_map; eassumption. }
  assert (Hmine : forall f, lookup (driverId d) (files st) = Some f -> agrees d f).
  { intros f Hl. destruct (Hag _ f Hl) as (d0 & Hin0 & Hid0 & Hagr).
    assert (d0 = d) by (eapply NoDup_map_inj; eauto). subst d0. exact Hagr. }
  assert (Hnone : forall x, lookup x (files st) = None ->
                  lookup x (fst (fire d rnd (files st))) = None).
  { intros x Hl. apply lookup_None. rewrite Hids. apply lookup_None, Hl. }
  unfold follows, wf, retired; simpl. rewrite Hdrv.
  split; [split; [rewrite Hids; exact Hf | split; [exact Hd|]]|].
  - intros x f' Hl'.
    destruct (eqb x (driverId d)) eqn:Ex.
    + apply eqb_eq in Ex. subst x.
      destruct (lookup (driverId d) (files st)) as [f|] eqn:Hl.
      * destruct (Hown f eq_refl (Hmine f eq_refl)) as (f'' & Hl'' & Hagr & _).
        rewrite Hl' in Hl''. inversion Hl''; subst f''.
        exists (snd (fire d rnd (files st))).
        split; [eapply setNth_In; eassumption | auto].
      * rewrite (Hnone _ Hl) in Hl'. discriminate.
    + apply eqb_neq in Ex. rewrite (Hoth x Ex) in Hl'.
      destruct (Hag x f' Hl') as (d0 & Hin0 & Hid0 & Hagr).
      exists d0. split; [|auto].
      eapply setNth_other; try eassumption. congruence.
  - split; [|split].
    + intros x a Ha. left.
      destruct (eqb x (driverId d)) eqn:Ex.
      * apply eqb_eq in Ex. subst x.
        destruct (Hown a Ha (Hmine a Ha)) as (b & Hb & _ & Hadv).
        exists b. auto.
      * apply eqb_neq in Ex. exists a. rewrite (Hoth x Ex).
        split; [exact Ha | apply advances_refl].
    + intros x [Hl Hin]. split; [apply Hnone, Hl | exact Hin].
    + intros x Hx.
      assert (Hl : lookup x (files st) = None).
      { apply lookup_None. intros H. apply Hx. apply in_or_app. left. exact H. }
      rewrite (Hnone x Hl). unfold usedIds in *; simpl.
      rewrite Hids, Hdrv. exact Hx.
Qed.

Lemma follows_step st e : wf st -> validEvent st e -> follows st (step st e).
Proof.
  intros Hwf Hv. destruct e as [l now | y | i rnd]; simpl.
  - apply follows_handleFileUpload; assumption.
  - apply follows_removeFile; assumption.
  - apply follows_tick; assumption.
Qed.

Lemma wf_empty : wf empty.
Proof.
  split; [constructor|]. split; [constructor|]. intros x f H. discriminate.
Qed.

Lemma wf_bounded st x f : wf st -> lookup x (files st) = Some f -> bounded f.
Proof.
  intros (_ & _ & Hag) H. destruct (Hag x f H) as (d & _ & _ & Hagr).
  unfold bounded.
  destruct d; simpl in Hagr; decompose [and] Hagr; clear Hagr;
    repeat match goal with E : progress f = _ |- _ => rewrite E; clear E end;
    split; lra.
Qed.


(** *** Histories *)

Lemma history_cons x st e evs :
  history x st (e :: evs) = snapshot x st ++ history x (step st e) evs.
Proof. reflexivity. Qed.

Lemma history_nil x st : history x st [] = snapshot x st.
Proof. unfold history; simpl. apply app_nil_r. Qed.

Lemma chain_impl {A : Type} (R S : A -> A -> Prop) (l : list A) :
  (forall a b, In a l -> In b l -> R a b -> S a b) -> chain R l -> chain S l.
Proof.
  induction l as [|a [|b l] IH]; simpl; auto.
  intros H [Hab Hc]. split.
  - apply H; auto.
  - apply IH; [|exact Hc]. intros a' b' Ha' Hb'. apply H; simpl in *; auto.
Qed.

Lemma retired_history x evs :
  forall st, wf st -> validRun st evs -> retired x st -> history x st evs = [].
Proof.
  induction evs as [|e evs IH]; intros st Hwf Hrun [Hnone Hin].
  - rewrite history_nil. unfold snapshot. rewrite Hnone. reflexivity.
  - destruct Hrun as [Hv Hrun].
    destruct (follows_step st e Hwf Hv) as (Hwf' & _ & Hret & _).
    rewrite history_cons. unfold snapshot at 1. rewrite Hnone. simpl.
    apply IH; auto. apply Hret. split; assumption.
Qed.

Lemma history_advances x evs :
  forall st, wf st -> validRun st evs ->
  chain advances (history x st evs) /\ Forall bounded (history x st evs).
Proof.
  induction evs as [|e evs IH]; intros st Hwf Hrun.
  - rewrite history_nil. unfold snapshot.
    destruct (lookup x (files st)) as [a|] eqn:Ha; simpl; [|auto].
    split; [exact I|]. constructor; [|constructor].
    exact (wf_bounded st x a Hwf Ha).
  - destruct Hrun as [Hv Hrun].
    destruct (follows_step st e Hwf Hv) as (Hwf' & Hadv & _ & _).
    destruct (IH _ Hwf' Hrun) as [IHc IHb].
    rewrite history_cons. unfold snapshot.
    destruct (lookup x (files st)) as [a|] eqn:Ha; simpl; [|auto].
    split; [|constructor; [exact (wf_bounded st x a Hwf Ha) | exact IHb]].
    destruct (Hadv x a Ha) as [(b & Hb & Hab) | Hret].
    + destruct evs as [|e' evs].
      * rewrite history_nil in *. unfold snapshot in *. rewrite Hb. simpl. auto.
      * rewrite history_cons in *. unfold snapshot in *. rewrite Hb in *.
        simpl in *. auto.
    + rewrite (retired_history x evs _ Hwf' Hrun Hret). exact I.
Qed.

(** A record first shows up as [uploading] with progress 0. *)
Lemma history_starts x evs :
  forall st, wf st -> validRun st evs -> ~ In x (usedIds st) ->
  match history x st evs with
  | [] => True
  | a :: _ => status a = uploading /\ progress a = 0
  end.
Proof.
  induction evs as [|e evs IH]; intros st Hwf Hrun Hx;
    assert (Hnone : lookup x (files st) = None)
      by (destruct (lookup x (files st)) eqn:E; [|reflexivity];
          exfalso; apply Hx; eapply lookup_Some_used; eassumption).
  - rewrite history_nil. unfold snapshot. rewrite Hnone. exact I.
  - destruct Hrun as [Hv Hrun].
    destruct (follows_step st e Hwf Hv) as (Hwf' & _ & _ & Hnew).
    specialize (Hnew x Hx).
    rewrite history_cons. unfold snapshot at 1. rewrite Hnone. simpl.
    destruct (lookup x (files (step st e))) as [b|] eqn:Hb.
    + destruct evs as [|e' evs].
      * rewrite history_nil. unfold snapshot. rewrite Hb. exact Hnew.
      * rewrite history_cons. unfold snapshot at 1. rewrite Hb. exact Hnew.
    + apply IH; assumption.
Qed.

(** The history ends with the record of the last state. *)
Lemma history_ends x evs :
  forall st, exists pre, history x st evs = pre ++ snapshot x (run st evs).
Proof.
  induction evs as [|e evs IH]; intros st.
  - exists []. apply history_nil.
  - destruct (IH (step st e)) as [pre Hpre].
    exists (snapshot x st ++ pre).
    rewrite history_cons, Hpre, app_assoc. reflexivity.
Qed.

Lemma history_last x evs st f d :
  lookup x (files (run st evs)) = Some f -> last (history x st evs) d = f.
Proof.
  intros Hf. destruct (history_ends x evs st) as [pre ->].
  unfold snapshot. rewrite Hf. apply last_last.
Qed.


(** *** Counting the resets *)

Lemma last_cons_default {A : Type} (c b : A) (h : list A) :
  last (c :: h) b = last h c.
Proof.
  revert c b. induction h as [|c' h IH]; intros c b; [reflexivity|].
  change (last (c :: c' :: h) b) with (last (c' :: h) b).
  rewrite IH. symmetry. apply IH.
Qed.

Lemma advances_leaves_uploading a b :
  advances a b -> status a <> uploading -> status b <> uploading.
Proof.
  intros [[E _] | [(E & _) | (_ & E & _)]] H; congruence.
Qed.

Lemma chain_never_back b h :
  chain advances (b :: h) -> status b <> uploading ->
  status (last h b) <> uploading.
Proof.
  revert b. induction h as [|c h IH]; intros b Hc Hb; [exact Hb|].
  destruct Hc as [Hbc Hc]. rewrite last_cons_default.
  apply IH; [exact Hc|]. eapply advances_leaves_uploading; eassumption.
Qed.

Lemma resets_chain a h :
  chain advances (a :: h) ->
  resets (a :: h)
  = if status_eqb (status a) uploading
       && negb (status_eqb (status (last h a)) uploading)
    then 1%nat else O.
Proof.
  revert a. induction h as [|b h IH]; intros a Hc.
  - simpl. destruct (status_eqb (status a) uploading); reflexivity.
  - destruct Hc as [Hab Hc]. rewrite last_cons_default.
    change (resets (a :: b :: h))
      with ((if status_eqb (status a) uploading
                && status_eqb (status b) processing then 1 else 0)
            + resets (b :: h))%nat.
    rewrite (IH b Hc).
    destruct Hab as [[E _] | [(Ea & Eb & _) | (Ea & Eb & _)]].
    + rewrite E. destruct (status b); reflexivity.
    + assert (Hl := chain_never_back b h Hc).
      rewrite Ea, Eb in *. simpl.
      destruct (status_eqb (status (last h b)) uploading) eqn:El;
        [|reflexivity].
      apply status_eqb_eq in El. exfalso. apply Hl; [discriminate | exact El].
    + rewrite Ea, Eb. reflexivity.
Qed.

Lemma validRun_ex_run : validRun empty ex_run.
Proof.
  unfold ex_run. simpl repeat.
  split.
  { split; [repeat constructor; simpl; tauto|]. intros x _ []. }
  repeat (split; [intros k; unfold half; split; lra|]).
  exact I.
Qed.

(** *** Claims on the progress simulator *)

(** C7: along every run of the component the progress stored for a record
    stays within 0 and 100, never decreases while the status stays the
    same, and drops only at the step from [uploading] to [processing],
    where it becomes 0; that step happens at most once, and exactly once
    for a record that has left [uploading]. *)
Theorem progress_monotone_bounded_reset_once x evs :
  validRun empty evs ->
  let h := history x empty evs in
  Forall (fun f => 0 <= progress f /\ progress f <= 100) h
  /\ chain (fun a b => status a = status b -> progress a <= progress b) h
  /\ chain (fun a b => progress b < progress a ->
                       status a = uploading /\ status b = processing
                       /\ progress b = 0) h
  /\ chain (fun a b => status a = uploading -> status b <> uploading ->
                       status b = processing /\ progress b = 0) h
  /\ (resets h <= 1)%nat
  /\ (forall f, lookup x (files (run empty evs)) = Some f ->
      resets h = if status_eqb (status f) uploading then O else 1%nat).
Proof.
  intros Hrun h.
  destruct (history_advances x evs empty wf_empty Hrun) as [Hc Hb].
  fold h in Hc, Hb.
  assert (Hstart := history_starts x evs empty wf_empty Hrun (fun H => H)).
  fold h in Hstart.
  assert (Hin : forall a, In a h -> bounded a) by (apply Forall_forall, Hb).
  split; [exact Hb|]. split.
  { revert Hc. apply chain_impl. intros a b _ _ Hab Heq.
    destruct Hab as [[_ Hle] | [(Ea & Eb & _) | (Ea & Eb & _)]];
      [exact Hle | congruence | congruence]. }
  split.
  { revert Hc. apply chain_impl. intros a b Ha _ Hab Hlt.
    destruct Hab as [[_ Hle] | [(Ea & Eb & Ep) | (_ & _ & Ep)]].
    - lra.
    - auto.
    - destruct (Hin a Ha) as [_ Hmax]. rewrite Ep in Hlt. lra. }
  split.
  { revert Hc. apply chain_impl. intros a b _ _ Hab Ha Hb'.
    destruct Hab as [[E _] | [(_ & Eb & Ep) | (Ea & _ & _)]];
      [congruence | auto | congruence]. }
  destruct h as [|a h'] eqn:Eh.
  - split; [simpl; lia|]. intros f Hf.
    assert (Hl := history_last x evs empty f f Hf).
    destruct (history_ends x evs empty) as [pre Hpre].
    unfold snapshot in Hpre. rewrite Hf in Hpre.
    fold h in Hpre. rewrite Eh in Hpre.
    destruct pre; discriminate.
  - rewrite (resets_chain a h' Hc). destruct Hstart as [Hup _].
    split.
    + destruct (status_eqb (status a) uploading
                && negb (status_eqb (status (last h' a)) uploading)); lia.
    + intros f Hf.
      assert (Hl := history_last x evs empty f a Hf).
      fold h in Hl. rewrite Eh, last_cons_default in Hl.
      rewrite Hl, Hup. simpl.
      destruct (status_eqb (status f) uploading); reflexivity.
Qed.

Lemma progress_monotone_bounded_reset_once_witness :
  validRun empty ex_run
  /\ (resets (history (str "k3x9") empty ex_run) <= 1)%nat.
Proof.
  split; [exact validRun_ex_run|].
  exact (proj1 (proj2 (proj2 (proj2 (proj2
    (progress_monotone_bounded_reset_once (str "k3x9") ex_run
       validRun_ex_run)))))).
Defined.


(** *** Claims on removal and on the terminal states *)

Lemma hasRecord_false x st :
  hasRecord x st = false <-> ~ In x (map id (files st)).
Proof.
  unfold hasRecord. rewrite <- lookup_None. unfold lookup.
  induction (files st) as [|f fs IH]; simpl; [tauto|].
  destruct (eqb (id f) x); simpl; [split; discriminate | exact IH].
Qed.

Lemma removeFile_absent x st : ~ In x (map id (files (removeFile x st))).
Proof.
  simpl. intros H. apply in_map_iff in H. destruct H as (f & E & Hin).
  apply filter_In in Hin. destruct Hin as [_ Hne].
  apply negb_true_iff, eqb_neq in Hne. contradiction.
Qed.

(** A tick of a driver whose record is gone keeps the registry and the
    identifiers of the drivers. *)
Lemma tick_absent x i rnd st d :
  nth_error (drivers st) i = Some d -> driverId d = x ->
  ~ In x (map id (files st)) ->
  files (tick i rnd st) = files st
  /\ map driverId (drivers (tick i rnd st)) = map driverId (drivers st).
Proof.
  intros Hi Hd Habs. unfold tick. rewrite Hi. simpl. split.
  - apply fire_absent. rewrite Hd. exact Habs.
  - apply setNth_map with (d := d); [exact Hi|].
    destruct d as [y p | y | y | y]; simpl; try reflexivity.
    + destruct (Qle_bool 100 (p + rnd O * 20)); reflexivity.
    + destruct (snd (processingPass y rnd 0 (files st))); reflexivity.
Qed.

Lemma ticks_absent x st0 ts :
  Forall (firesDriverOf x st0) ts ->
  forall st, map driverId (drivers st) = map driverId (drivers st0) ->
  ~ In x (map id (files st)) ->
  files (run st ts) = files st.
Proof.
  induction 1 as [|e ts He _ IH]; intros st Hd Habs; [reflexivity|].
  destruct e as [l now | y | i rnd]; simpl in He; try contradiction.
  destruct He as (d0 & Hi0 & Hid0).
  assert (Hi : exists d, nth_error (drivers st) i = Some d /\ driverId d = x).
  { assert (E : nth_error (map driverId (drivers st)) i = Some x).
    { rewrite Hd, nth_error_map, Hi0. simpl. rewrite Hid0. reflexivity. }
    rewrite nth_error_map in E.
    destruct (nth_error (drivers st) i) as [d|]; [|discriminate].
    exists d. split; [reflexivity|]. simpl in E. congruence. }
  destruct Hi as (d & Hi & Hid).
  destruct (tick_absent x i rnd st d Hi Hid Habs) as [Hf Hdr].
  simpl. rewrite IH.
  - exact Hf.
  - rewrite Hdr. exact Hd.
  - rewrite Hf. exact Habs.
Qed.

(** C1, as the code has it: [removeFile] deletes the records of the
    identifier and stops no timer, neither of that record nor of any
    other.  The ticks of the drivers of the removed record go on; they
    leave the registry as it is, so the record is not created again and
    the other records stay; and a tick of a driver never changes a record
    of another identifier. *)
Theorem removeFile_leaves_driver_running x st ts :
  Forall (firesDriverOf x st) ts ->
  let st1 := removeFile x st in
  drivers st1 = drivers st
  /\ hasRecord x st1 = false
  /\ files (run st1 ts) = files st1
  /\ hasRecord x (run st1 ts) = false
  /\ (forall f, In f (files st) -> id f <> x -> In f (files (run st1 ts)))
  /\ (forall s i d rnd f,
        nth_error (drivers s) i = Some d -> driverId d = x -> id f <> x ->
        (In f (files (tick i rnd s)) <-> In f (files s))).
Proof.
  intros Hts st1.
  assert (Habs := removeFile_absent x st). fold st1 in Habs.
  assert (Hrun : files (run st1 ts) = files st1).
  { apply (ticks_absent x st ts Hts); [reflexivity | exact Habs]. }
  split; [reflexivity|].
  split; [apply hasRecord_false, Habs|].
  split; [exact Hrun|].
  split; [apply hasRecord_false; rewrite Hrun; exact Habs|].
  split.
  - intros f Hin Hne. rewrite Hrun. simpl. apply filter_In.
    split; [exact Hin|]. apply negb_true_iff, eqb_neq, Hne.
  - intros s i d rnd f Hi Hd Hne. unfold tick. rewrite Hi. simpl.
    apply fire_others. rewrite Hd. exact Hne.
Qed.

Lemma removeFile_leaves_driver_running_witness :
  Forall (firesDriverOf (str "k3x9") (run empty [AddFiles (Some [ex_selected]) 0]))
         [Tick 0 half; Tick 0 half]
  /\ drivers (removeFile (str "k3x9") (run empty [AddFiles (Some [ex_selected]) 0]))
     = drivers (run empty [AddFiles (Some [ex_selected]) 0]).
Proof.
  assert (H : Forall (firesDriverOf (str "k3x9")
                        (run empty [AddFiles (Some [ex_selected]) 0]))
                     [Tick 0 half; Tick 0 half]).
  { repeat constructor; eexists; split; reflexivity. }
  split; [exact H|].
  exact (proj1 (removeFile_leaves_driver_running (str "k3x9") _ _ H)).
Defined.

(** C1 as stated fails: after the record is removed its upload interval is
    still armed, and its next tick fires and advances the progress it
    keeps. *)
Lemma removed_record_driver_still_fires :
  ~ halted (str "k3x9") ex_removed = true
  /\ hasRecord (str "k3x9") ex_removed = false
  /\ drivers ex_removed = [Uploading (str "k3x9") 0]
  /\ drivers (tick 0 half ex_removed)
     = [Uploading (str "k3x9") (0 + (1 # 2) * 20)].
Proof.
  split; [vm_compute; discriminate|].
  split; [reflexivity|]. split; reflexivity.
Qed.




(** *** Further properties of the registry *)

Lemma processingPass_static x rnd fs :
  forall k, map static (fst (processingPass x rnd k fs)) = map static fs.
Proof.
  induction fs as [|f fs IH]; simpl; intros k; [reflexivity|].
  destruct (eqb (id f) x && status_eqb (status f) processing).
  - destruct (Qle_bool 100 (progress f + rnd k * 15)); simpl;
      rewrite IH; reflexivity.
  - simpl. rewrite IH. reflexivity.
Qed.

Lemma fire_static d rnd fs : map static (fst (fire d rnd fs)) = map static fs.
Proof.
  assert (Hmap : forall x g, (forall f, static (g f) = static f) ->
    map static (map (fun f => if eqb (id f) x then g f else f) fs)
    = map static fs).
  { intros x g Hg. rewrite map_map. apply map_ext. intros f.
    destruct (eqb (id f) x); [apply Hg | reflexivity]. }
  destruct d as [x p | x | x | x]; simpl; try reflexivity.
  - destruct (Qle_bool 100 (p + rnd O * 20)); simpl; apply Hmap; reflexivity.
  - apply processingPass_static.
Qed.

Lemma fire_driverId d rnd fs : driverId (snd (fire d rnd fs)) = driverId d.
Proof.
  destruct d as [x p | x | x | x]; simpl; try reflexivity.
  - destruct (Qle_bool 100 (p + rnd O * 20)); reflexivity.
  - destruct (snd (processingPass x rnd 0 fs)); reflexivity.
Qed.

Lemma setNth_length {A : Type} i (x : A) l :
  List.length (setNth i x l) = List.length l.
Proof.
  revert i; induction l as [|y l IH]; intros [|i]; simpl; auto.
Qed.

(** X7: a tick of any timer, in any state, changes nothing but [status]
    and [progress]: the records keep their number, their order and their
    identifier, name, size, date and error text; the drivers keep their
    number and their identifiers. *)
Theorem tick_writes_status_and_progress_only i rnd st :
  map static (files (tick i rnd st)) = map static (files st)
  /\ map driverId (drivers (tick i rnd st)) = map driverId (drivers st)
  /\ List.length (files (tick i rnd st)) = List.length (files st)
  /\ List.length (drivers (tick i rnd st)) = List.length (drivers st).
Proof.
  unfold tick. destruct (nth_error (drivers st) i) as [d|] eqn:Hi;
    [|repeat split; reflexivity].
  simpl.
  assert (Hs := fire_static d rnd (files st)).
  split; [exact Hs|]. split.
  - apply setNth_map with (d := d); [exact Hi | apply fire_driverId].
  - split; [|apply setNth_length].
    apply (f_equal (@List.length _)) in Hs. rewrite !length_map in Hs.
    exact Hs.
Qed.

Lemma wf_run evs : forall st, wf st -> validRun st evs -> wf (run st evs).
Proof.
  induction evs as [|e evs IH]; intros st Hwf Hrun; [exact Hwf|].
  destruct Hrun as [Hv Hrun]. simpl. apply IH; [|exact Hrun].
  apply (follows_step st e Hwf Hv).
Qed.

Lemma NoDup_lookup fs f :
  NoDup (map id fs) -> In f fs -> lookup (id f) fs = Some f.
Proof.
  unfold lookup. induction fs as [|a fs IH]; simpl; intros Hnd Hin;
    [contradiction|].
  inversion Hnd as [|? ? Hnot Hnd']; subst.
  destruct Hin as [-> | Hin].
  - rewrite eqb_refl. reflexivity.
  - destruct (eqb (id a) (id f)) eqn:E; [|apply IH; assumption].
    apply eqb_eq in E. exfalso. apply Hnot. rewrite E. apply in_map, Hin.
Qed.

Lemma errorText_run evs :
  forall st, Forall (fun f => errorText f = None) (files st) ->
  Forall (fun f => errorText f = None) (files (run st evs)).
Proof.
  induction evs as [|e evs IH]; intros st H; [exact H|].
  simpl. apply IH.
  destruct e as [[l|] now | y | i rnd]; simpl.
  - apply Forall_app. split; [exact H|].
    apply Forall_forall. intros f Hf. apply in_map_iff in Hf.
    destruct Hf as (s & <- & _). reflexivity.
  - exact H.
  - apply Forall_forall. intros f Hf. apply filter_In in Hf.
    rewrite Forall_forall in H. apply H, Hf.
  - assert (Hs : map static (files (tick i rnd st)) = map static (files st)).
    { unfold tick. destruct (nth_error (drivers st) i); [|reflexivity].
      apply fire_static. }
    assert (Hall : forall fs, Forall (fun f => errorText f = None) fs
                   <-> Forall (fun t => snd t = None) (map static fs)).
    { intros fs. rewrite Forall_map. reflexivity. }
    apply Hall. rewrite Hs. apply Hall, H.
Qed.

(** X6: in every run of the component identifiers are unique, a record
    that is [uploading] or [processing] has a progress in [0, 100), a
    record that is [ready] has progress 100, and no record is ever in
    [error] or carries an error text: the progress bar is shown exactly
    for the records that are not [ready], and the alert never. *)
Theorem registry_invariant evs :
  validRun empty evs ->
  NoDup (map id (files (run empty evs)))
  /\ (forall f, In f (files (run empty evs)) ->
      match status f with
      | uploading | processing => 0 <= progress f /\ progress f < 100
      | ready => progress f = 100
      | error => False
      end
      /\ errorText f = None
      /\ showsProgress f = negb (status_eqb (status f) ready)
      /\ showsAlert f = false).
Proof.
  intros Hrun.
  assert (Hwf := wf_run evs empty wf_empty Hrun).
  assert (Herr := errorText_run evs empty (Forall_nil _)).
  destruct Hwf as (Hnd & _ & Hag).
  split; [exact Hnd|]. intros f Hin.
  destruct (Hag _ f (NoDup_lookup _ f Hnd Hin)) as (d & _ & _ & Hagr).
  rewrite Forall_forall in Herr. specialize (Herr f Hin).
  unfold showsProgress, showsAlert. rewrite Herr.
  destruct d as [x p | x | x | x]; simpl in Hagr.
  - destruct Hagr as (-> & -> & H0 & H1). simpl. auto.
  - destruct Hagr as (-> & ->). simpl. repeat split; lra.
  - destruct Hagr as (-> & H0 & H1). simpl. auto.
  - destruct Hagr as (-> & ->). simpl. auto.
Qed.

Lemma registry_invariant_witness :
  validRun empty ex_run /\ NoDup (map id (files (run empty ex_run))).
Proof.
  split; [exact validRun_ex_run|].
  exact (proj1 (registry_invariant ex_run validRun_ex_run)).
Defined.






Lemma filter_comm {A : Type} (p q : A -> bool) (l : list A) :
  filter p (filter q l) = filter q (filter p l).
Proof.
  induction l as [|a l IH]; simpl; [reflexivity|].
  destruct (p a) eqn:Ep, (q a) eqn:Eq; simpl; rewrite ?Ep, ?Eq, IH; reflexivity.
Qed.

Lemma filter_all {A : Type} (p : A -> bool) (l : list A) :
  (forall a, In a l -> p a = true) -> filter p l = l.
Proof.
  induction l as [|a l IH]; simpl; intros H; [reflexivity|].
  rewrite (H a (or_introl eq_refl)), IH; auto.
Qed.

(** X8: removing is idempotent, removals of two identifiers commute, and a
    removal keeps the other records, in their order, and every driver. *)
Theorem removeFile_idempotent_commutes x y st :
  removeFile x (removeFile x st) = removeFile x st
  /\ removeFile x (removeFile y st) = removeFile y (removeFile x st)
  /\ files (removeFile x st)
     = filter (fun f => negb (eqb (id f) x)) (files st)
  /\ (forall f, In f (files (removeFile x st)) <-> In f (files st) /\ id f <> x)
  /\ drivers (removeFile x st) = drivers st.
Proof.
  unfold removeFile; simpl. split; [|split; [|split; [|split]]].
  - f_equal. induction (files st) as [|a fs IH]; simpl; [reflexivity|]. destruct (negb (eqb (id a) x)) eqn:E; simpl; rewrite ?E, IH; reflexivity.
  - rewrite filter_comm. reflexivity.
  - reflexivity.
  - intros f. rewrite filter_In, negb_true_iff, eqb_neq. tauto.
  - reflexivity.
Qed.

(** X9: removing an identifier that names no record changes nothing. *)
Theorem removeFile_absent_is_noop x st :
  hasRecord x st = false -> removeFile x st = st.
Proof.
  intros H. apply hasRecord_false in H.
  destruct st as [fs ds]. unfold removeFile; simpl in *. f_equal.
  apply filter_all. intros f Hf. apply negb_true_iff, eqb_neq.
  intros E. apply H. rewrite <- E. apply in_map, Hf.
Qed.

Lemma removeFile_absent_is_noop_witness :
  hasRecord (str "zz") (run empty ex_run) = false
  /\ removeFile (str "zz") (run empty ex_run) = run empty ex_run.
Proof.
  assert (H : hasRecord (str "zz") (run empty ex_run) = false)
    by (vm_compute; reflexivity).
  split; [exact H|].
  exact (removeFile_absent_is_noop (str "zz") (run empty ex_run) H).
Defined.

(** X10: files selected with distinct identifiers that are not in the
    registry are appended in the order selected, each found under its
    identifier as an [uploading] record at progress 0 with its own upload
    driver, while the records already there stay where they are; removing
    one of the new files gives the registry without it, and leaves every
    driver, also the one just started. *)
Theorem handleFileUpload_then_removeFile l now st :
  NoDup (map s_id l) ->
  (forall s, In s l -> hasRecord (s_id s) st = false) ->
  let st' := handleFileUpload (Some l) now st in
  files st' = files st ++ map (newFile now) l
  /\ drivers st' = drivers st ++ map (fun s => Uploading (s_id s) 0) l
  /\ (forall x f, lookup x (files st) = Some f -> lookup x (files st') = Some f)
  /\ (forall s, In s l ->
      lookup (s_id s) (files st') = Some (newFile now s)
      /\ files (removeFile (s_id s) st')
         = files st
           ++ map (newFile now)
                  (filter (fun t => negb (eqb (s_id t) (s_id s))) l)
      /\ drivers (removeFile (s_id s) st') = drivers st').
Proof.
  intros Hnd Hfresh st'. unfold st', handleFileUpload; simpl.
  split; [reflexivity|]. split; [rewrite map_map; reflexivity|].
  split.
  { intros x f Hx. rewrite lookup_app, Hx. reflexivity. }
  intros s Hs.
  assert (Habs : ~ In (s_id s) (map id (files st))).
  { apply hasRecord_false. apply Hfresh, Hs. }
  split; [|split; [|reflexivity]].
  - rewrite lookup_app. rewrite (proj2 (lookup_None _ _) Habs).
    apply (NoDup_lookup (map (newFile now) l) (newFile now s)).
    + rewrite ids_newFiles. exact Hnd.
    + apply in_map, Hs.
  - rewrite filter_app. f_equal.
    + apply filter_all. intros f Hf. apply negb_true_iff, eqb_neq.
      intros E. apply Habs. rewrite <- E. apply in_map, Hf.
    + clear. induction l as [|t l IH]; simpl; [reflexivity|].
      destruct (negb (eqb (s_id t) (s_id s))); simpl; rewrite IH; reflexivity.
Qed.

Lemma handleFileUpload_then_removeFile_witness :
  NoDup (map s_id [ex_selected])
  /\ (forall s, In s [ex_selected] -> hasRecord (s_id s) empty = false)
  /\ files (removeFile (str "k3x9")
              (handleFileUpload (Some [ex_selected]) 0 empty)) = [].
Proof.
  assert (H1 : NoDup (map s_id [ex_selected]))
    by (repeat constructor; simpl; tauto).
  assert (H2 : forall s, In s [ex_selected] -> hasRecord (s_id s) empty = false)
    by (intros s _; reflexivity).
  split; [exact H1|]. split; [exact H2|].
  exact (proj1 (proj2 (proj2 (proj2 (proj2
    (handleFileUpload_then_removeFile [ex_selected] 0 empty H1 H2)))
    ex_selected (or_introl eq_refl)))).
Defined.


(** *** The life of one record *)

Lemma lookup_static x fs :
  forall fs' a b, map static fs = map static fs' ->
  lookup x fs = Some a -> lookup x fs' = Some b -> static a = static b.
Proof.
  unfold lookup.
  induction fs as [|f fs IH]; intros [|f' fs'] a b E Ha Hb; simpl in *;
    try discriminate.
  assert (Ef : static f = static f') by congruence.
  assert (Erest : map static fs = map static fs') by congruence.
  assert (Eid : id f' = id f) by (unfold static in Ef; congruence).
  rewrite Eid in Hb.
  destruct (eqb (id f) x).
  - inversion Ha; inversion Hb; subst. exact Ef.
  - eapply IH; eassumption.
Qed.

Lemma step_record st e x a b :
  wf st -> validEvent st e ->
  lookup x (files st) = Some a -> lookup x (files (step st e)) = Some b ->
  static a = static b /\ nextStatus (status a) (status b).
Proof.
  intros Hwf Hv Ha Hb. split.
  - destruct e as [[l|] now | y | i rnd]; simpl in Hb.
    + rewrite lookup_app, Ha in Hb. congruence.
    + congruence.
    + rewrite lookup_filter in Hb.
      destruct (eqb x y); [discriminate | congruence].
    + apply (lookup_static x (files st) (files (tick i rnd st)) a b);
        [|exact Ha | exact Hb].
      unfold tick. destruct (nth_error (drivers st) i); [|reflexivity].
      symmetry. apply fire_static.
  - destruct (follows_step st e Hwf Hv) as (_ & Hadv & _).
    destruct (Hadv x a Ha) as [(b' & Hb' & Hab) | [Hnone _]];
      [|congruence].
    assert (b' = b) by congruence. subst b'. unfold nextStatus.
    destruct Hab as [[E _] | [(Ea & Eb & _) | (Ea & Eb & _)]]; auto.
Qed.

Lemma history_chain (R : UploadedFile -> UploadedFile -> Prop) x :
  (forall st e a b, wf st -> validEvent st e ->
     lookup x (files st) = Some a -> lookup x (files (step st e)) = Some b ->
     R a b) ->
  forall evs st, wf st -> validRun st evs -> chain R (history x st evs).
Proof.
  intros HR. induction evs as [|e evs IH]; intros st Hwf Hrun.
  - rewrite history_nil. unfold snapshot.
    destruct (lookup x (files st)); exact I.
  - destruct Hrun as [Hv Hrun].
    destruct (follows_step st e Hwf Hv) as (Hwf' & Hadv & _ & _).
    assert (IHc := IH _ Hwf' Hrun).
    rewrite history_cons. unfold snapshot.
    destruct (lookup x (files st)) as [a|] eqn:Ha; simpl; [|exact IHc].
    destruct (Hadv x a Ha) as [(b & Hb & _) | Hret].
    + assert (Hab := HR st e a b Hwf Hv Ha Hb).
      destruct evs as [|e' evs].
      * rewrite history_nil in *. unfold snapshot in *. rewrite Hb. simpl. auto.
      * rewrite history_cons in *. unfold snapshot in *. rewrite Hb in *.
        simpl in *. auto.
    + rewrite (retired_history x evs _ Hwf' Hrun Hret). exact I.
Qed.

(** X14: along every run a record keeps its identifier, name, size, date
    and error text, and its status only moves forward one step at a time,
    from [uploading] to [processing] to [ready]: it never goes back and
    never skips the processing phase. *)
Theorem record_life_cycle x evs :
  validRun empty evs ->
  chain (fun a b => static a = static b /\ nextStatus (status a) (status b))
        (history x empty evs).
Proof.
  intros Hrun.
  apply (history_chain _ x); [|exact wf_empty | exact Hrun].
  intros st e a b. apply step_record.
Qed.

Lemma record_life_cycle_witness :
  validRun empty ex_run
  /\ chain (fun a b => static a = static b /\ nextStatus (status a) (status b))
           (history (str "k3x9") empty ex_run).
Proof.
  split; [exact validRun_ex_run|].
  exact (record_life_cycle (str "k3x9") ex_run validRun_ex_run).
Defined.

(** *** Timers of different records *)

Lemma only_refl x fs : only x fs fs.
Proof. induction fs; constructor; auto. Qed.

Lemma only_map x g fs :
  (forall f, id (g f) = id f) ->
  only x fs (map (fun f => if eqb (id f) x then g f else f) fs).
Proof.
  intros Hg. induction fs as [|f fs IH]; simpl; constructor; [|exact IH].
  destruct (eqb (id f) x) eqn:E.
  - rewrite Hg. split; [reflexivity|]. apply eqb_eq in E. congruence.
  - auto.
Qed.

Lemma only_processingPass x rnd fs :
  forall k, only x fs (fst (processingPass x rnd k fs)).
Proof.
  induction fs as [|f fs IH]; simpl; intros k; [constructor|].
  destruct (eqb (id f) x && status_eqb (status f) processing) eqn:E.
  - apply andb_true_iff in E. destruct E as [E _]. apply eqb_eq in E.
    destruct (Qle_bool 100 (progress f + rnd k * 15)); simpl;
      (constructor; [split; [reflexivity | congruence] | apply IH]).
  - simpl. constructor; [auto | apply IH].
Qed.

Lemma fire_only d rnd fs : only (driverId d) fs (fst (fire d rnd fs)).
Proof.
  destruct d as [x p | x | x | x]; simpl; try apply only_refl.
  - destruct (Qle_bool 100 (p + rnd O * 20)); simpl; apply only_map; reflexivity.
  - apply only_processingPass.
Qed.

Lemma merge_map x y g fs fs' :
  x <> y -> only y fs fs' -> (forall f, id (g f) = id f) ->
  map (fun f => if eqb (id f) x then g f else f) fs'
  = merge x (map (fun f => if eqb (id f) x then g f else f) fs) fs'.
Proof.
  intros Hxy Ho Hg. induction Ho as [|a b fs fs' [Hid Hab] _ IH]; simpl;
    [reflexivity|].
  rewrite IH. f_equal. rewrite <- Hid.
  destruct (eqb (id a) x) eqn:E.
  - rewrite Hg, E. apply eqb_eq in E.
    rewrite (Hab ltac:(congruence)). reflexivity.
  - rewrite E. reflexivity.
Qed.

Lemma merge_processingPass x y rnd fs fs' :
  x <> y -> only y fs fs' ->
  forall k, processingPass x rnd k fs'
            = (merge x (fst (processingPass x rnd k fs)) fs',
               snd (processingPass x rnd k fs)).
Proof.
  intros Hxy Ho. induction Ho as [|a b fs fs' [Hid Hab] _ IH]; simpl;
    intros k; [reflexivity|].
  rewrite <- Hid.
  destruct (eqb (id a) x) eqn:E.
  - apply eqb_eq in E. rewrite <- (Hab ltac:(congruence)). simpl.
    destruct (status_eqb (status a) processing); simpl.
    + destruct (Qle_bool 100 (progress a + rnd k * 15)); simpl;
        rewrite IH; simpl; rewrite E, eqb_refl; reflexivity.
    + rewrite IH. simpl. rewrite E, eqb_refl. reflexivity.
  - simpl. rewrite IH. simpl. rewrite E. reflexivity.
Qed.

Lemma merge_same x y fs F :
  x <> y -> only y fs F -> merge x fs F = F.
Proof.
  intros Hxy HF. induction HF as [|a b fs F [E Hab] _ IH]; simpl;
    [reflexivity|].
  rewrite IH. f_equal.
  destruct (eqb (id a) x) eqn:Ea; [|reflexivity].
  apply eqb_eq in Ea. apply Hab. congruence.
Qed.

Lemma fire_merge d y rnd fs fs' :
  driverId d <> y -> only y fs fs' ->
  fire d rnd fs'
  = (merge (driverId d) (fst (fire d rnd fs)) fs', snd (fire d rnd fs)).
Proof.
  intros Hxy Ho.
  destruct d as [x p | x | x | x]; simpl in *.
  - destruct (Qle_bool 100 (p + rnd O * 20)); simpl; f_equal;
      apply (merge_map x y); auto.
  - rewrite (merge_same x y fs fs' Hxy Ho). reflexivity.
  - rewrite (merge_processingPass x y rnd fs fs' Hxy Ho).
    reflexivity.
  - rewrite (merge_same x y fs fs' Hxy Ho). reflexivity.
Qed.

Lemma merge_comm x y fs :
  x <> y -> forall X Y, only x fs X -> only y fs Y ->
  merge x X Y = merge y Y X.
Proof.
  intros Hxy. induction fs as [|f fs IH]; intros X Y HX HY;
    inversion HX as [|? a ? X' [Ea Ha] HX']; subst;
    inversion HY as [|? b ? Y' [Eb Hb] HY']; subst; simpl; [reflexivity|].
  rewrite (IH X' Y' HX' HY'). f_equal.
  rewrite <- Ea, <- Eb.
  destruct (eqb (id f) x) eqn:Ex, (eqb (id f) y) eqn:Ey.
  - apply eqb_eq in Ex. apply eqb_eq in Ey. congruence.
  - reflexivity.
  - reflexivity.
  - apply eqb_neq in Ex. apply eqb_neq in Ey.
    rewrite <- (Ha Ex), <- (Hb Ey). reflexivity.
Qed.

Lemma setNth_comm {A : Type} i j (a b : A) l :
  i <> j -> setNth i a (setNth j b l) = setNth j b (setNth i a l).
Proof.
  revert i j. induction l as [|y l IH]; intros [|i] [|j] H; simpl;
    try reflexivity; try congruence.
  rewrite IH; [reflexivity | congruence].
Qed.

Lemma nth_error_setNth_other {A : Type} i j (b : A) l :
  i <> j -> nth_error (setNth j b l) i = nth_error l i.
Proof.
  revert i j. induction l as [|y l IH]; intros [|i] [|j] H; simpl;
    try reflexivity; try congruence.
  apply IH. congruence.
Qed.

(** X15: the timers of two different identifiers do not interact: their
    ticks commute, whatever phase each driver is in. *)
Theorem ticks_of_different_records_commute i j ri rj di dj st :
  nth_error (drivers st) i = Some di ->
  nth_error (drivers st) j = Some dj ->
  driverId di <> driverId dj ->
  tick i ri (tick j rj st) = tick j rj (tick i ri st).
Proof.
  intros Hi Hj Hne.
  assert (Hij : i <> j) by (intros ->; congruence).
  unfold tick at 2 4. rewrite Hi, Hj. unfold tick; simpl.
  rewrite (nth_error_setNth_other i j _ (drivers st) Hij), Hi.
  rewrite (nth_error_setNth_other j i _ (drivers st) (not_eq_sym Hij)), Hj.
  rewrite (fire_merge di (driverId dj) ri (files st) _ Hne (fire_only dj rj _)).
  rewrite (fire_merge dj (driverId di) rj (files st) _ (not_eq_sym Hne)
             (fire_only di ri _)).
  simpl. f_equal.
  - apply (merge_comm _ _ (files st) Hne); apply fire_only.
  - apply setNth_comm. exact Hij.
Qed.

Lemma ticks_of_different_records_commute_witness :
  nth_error (drivers ex_pair) 0 = Some (Uploading (str "k3x9") 0)
  /\ nth_error (drivers ex_pair) 1 = Some (Uploading (str "q7m2") 0)
  /\ str "k3x9" <> str "q7m2"
  /\ tick 0 half (tick 1 half ex_pair) = tick 1 half (tick 0 half ex_pair).
Proof.
  assert (H0 : nth_error (drivers ex_pair) 0 = Some (Uploading (str "k3x9") 0))
    by reflexivity.
  assert (H1 : nth_error (drivers ex_pair) 1 = Some (Uploading (str "q7m2") 0))
    by reflexivity.
  assert (H2 : str "k3x9" <> str "q7m2") by (vm_compute; discriminate).
  split; [exact H0|]. split; [exact H1|]. split; [exact H2|].
  exact (ticks_of_different_records_commute 0 1 half half _ _ ex_pair H0 H1 H2).
Defined.

End UploadFacts.

(** ** DocumentManagement *)

Module CatalogFacts.

Import JSFacts Catalog.

Unset Implicit Arguments.





(** *** Further properties of the catalog *)



Lemma startsWith_nil s : startsWith s [] = true.
Proof. destruct s; reflexivity. Qed.








End CatalogFacts.
